(** * OTA Captor: the capture pipeline of [onn_ota_captor.py]

    A shallow embedding of the URL matcher ([URL_REGEX], [sanitize_url],
    [friendly_name_from_url]), of the one-shot latch ([OneShotController]),
    of the capture session ([OtaCaptor]: the shared queue, the writer
    and parser threads, [stop]), of the wait of [cmd_oneshot], of
    [cmd_download_latest] and of [download_with_progress], together with
    the properties of the capture pipeline.

    Conventions.  A Python [str] is a [list ascii]; a character is a code
    point below 256.  Threads are interleaved by an explicit schedule: a
    list of atomic events, each executed by a total step function. *)

From Stdlib Require Import Ascii String List Bool Arith Lia Permutation.
From stdpp Require Import gmap strings list.
Import ListNotations.

Local Open Scope list_scope.
Set Warnings "-clear-no-such-hyp".

(** A Python string. *)
Abbreviation str := (list ascii).

(** String literals enter the model through this conversion. *)
Definition lit (s : string) : str := list_ascii_of_string s.
Arguments lit : simpl never.

(** ** Python string methods used by the program *)
Module Py.

(** [str.isspace] on one character, code points below 256: TAB, LF, VT,
    FF, CR, FS, GS, RS, US, SPACE, NEL (0x85) and NBSP (0xA0). *)
Definition isspace (c : ascii) : bool :=
  let n := nat_of_ascii c in
  ((9 <=? n) && (n <=? 13)) || ((28 <=? n) && (n <=? 32))
  || (n =? 133) || (n =? 160).

(** Membership of a character in a string, [c in chars]. *)
Definition char_in (chars : str) (c : ascii) : bool :=
  existsb (Ascii.eqb c) chars.

(** [s.lstrip(chars)] for the set of characters [p]. *)
Fixpoint lstrip_by (p : ascii -> bool) (s : str) : str :=
  match s with
  | c :: t => if p c then lstrip_by p t else s
  | [] => []
  end.

(** [s.rstrip(chars)] for the set of characters [p]. *)
Definition rstrip_by (p : ascii -> bool) (s : str) : str :=
  rev (lstrip_by p (rev s)).

Definition strip_by (p : ascii -> bool) (s : str) : str :=
  rstrip_by p (lstrip_by p s).

(** [s.strip()] *)
Definition strip (s : str) : str := strip_by isspace s.

(** [s.strip(chars)] *)
Definition strip_chars (chars : str) (s : str) : str :=
  strip_by (char_in chars) s.

(** [s.rstrip(chars)] *)
Definition rstrip_chars (chars : str) (s : str) : str :=
  rstrip_by (char_in chars) s.

(** [s.startswith(p)] *)
Fixpoint startswith (s p : str) {struct p} : bool :=
  match p with
  | [] => true
  | a :: p' =>
      match s with
      | b :: s' => Ascii.eqb a b && startswith s' p'
      | [] => false
      end
  end.

(** [s.endswith(p)] *)
Definition endswith (s p : str) : bool := startswith (rev s) (rev p).

(** [s.split(sep)] for a one-character separator: never empty. *)
Fixpoint split (sep : ascii) (s : str) : list str :=
  match s with
  | [] => [[]]
  | c :: t =>
      if Ascii.eqb c sep then [] :: split sep t
      else match split sep t with
           | seg :: segs => (c :: seg) :: segs
           | [] => [[c]]
           end
  end.

(** [l[-1]] on a list of strings; the program only indexes the result
    of [split], which is never empty. *)
Definition last_item (l : list str) : str := List.last l [].

(** [a or b] on strings: the empty string is falsy. *)
Definition or_else (a b : str) : str :=
  match a with [] => b | _ => a end.

End Py.

(** ** A backtracking matcher for the regular expressions of the program

    Python's [re] explores alternatives left to right and backtracks; the
    matcher below does the same with a success continuation.  The two
    patterns of the program repeat character classes only, so repetition
    is offered on classes. *)
Module Re.

Inductive regex : Type :=
| Chr (c : ascii)                      (* a literal character *)
| Cls (p : ascii -> bool)              (* a character class *)
| Cat (r1 r2 : regex)                  (* r1 r2 *)
| Alt (r1 r2 : regex)                  (* r1|r2, left first *)
| Opt (r : regex)                      (* (?:r)?, greedy *)
| Star (p : ascii -> bool)             (* [..]*, greedy *)
| LazyStar (p : ascii -> bool)         (* [..]*?, lazy *)
| Plus (p : ascii -> bool)             (* [..]+, greedy *)
| Group (r : regex)                    (* (r), capturing group 1 *)
| Eos                                  (* $ without re.MULTILINE *)
| Eps.                                 (* the empty pattern *)

(** A literal string. *)
Fixpoint Lit (s : str) : regex :=
  match s with
  | [] => Eps
  | c :: t => Cat (Chr c) (Lit t)
  end.

(** A sequence of patterns. *)
Fixpoint Seq (rs : list regex) : regex :=
  match rs with
  | [] => Eps
  | r :: t => Cat r (Seq t)
  end.

Section Exec.
Context {R : Type}.

(** Continuations receive the rest of the input and group 1. *)
Definition cont : Type := str -> option str -> option R.

(** Greedy repetition of a class: as many characters as possible first,
    then one less, down to none. *)
Fixpoint star_greedy (p : ascii -> bool) (s : str) (cap : option str)
    (k : cont) : option R :=
  match s with
  | c :: t =>
      if p c then
        match star_greedy p t cap k with
        | Some x => Some x
        | None => k s cap
        end
      else k s cap
  | [] => k [] cap
  end.

(** Lazy repetition of a class: as few characters as possible first. *)
Fixpoint star_lazy (p : ascii -> bool) (s : str) (cap : option str)
    (k : cont) : option R :=
  match k s cap with
  | Some x => Some x
  | None =>
      match s with
      | c :: t => if p c then star_lazy p t cap k else None
      | [] => None
      end
  end.

(** [exec r s cap k]: match [r] at the head of [s], then continue. *)
Fixpoint exec (r : regex) (s : str) (cap : option str) (k : cont)
    : option R :=
  match r with
  | Chr c =>
      match s with
      | a :: t => if Ascii.eqb a c then k t cap else None
      | [] => None
      end
  | Cls p =>
      match s with
      | a :: t => if p a then k t cap else None
      | [] => None
      end
  | Cat r1 r2 => exec r1 s cap (fun s' cap' => exec r2 s' cap' k)
  | Alt r1 r2 =>
      match exec r1 s cap k with
      | Some x => Some x
      | None => exec r2 s cap k
      end
  | Opt r1 =>
      match exec r1 s cap k with
      | Some x => Some x
      | None => k s cap
      end
  | Star p => star_greedy p s cap k
  | LazyStar p => star_lazy p s cap k
  | Plus p =>
      match s with
      | a :: t => if p a then star_greedy p t cap k else None
      | [] => None
      end
  | Group r1 =>
      exec r1 s cap
        (fun s' _ => k s' (Some (take (length s - length s') s)))
  | Eos =>
      match s with
      | [] => k s cap
      | [c] => if Ascii.eqb c "010" then k s cap else None
      | _ => None
      end
  | Eps => k s cap
  end.

End Exec.

(** A match object: the text of group 0 and of group 1. *)
Record match_obj : Type := { group0 : str; group1 : option str }.

(** [pattern.match(s)]: a match at the head of [s]. *)
Definition match_at (r : regex) (s : str) : option match_obj :=
  exec r s None
    (fun rest cap =>
       Some {| group0 := take (length s - length rest) s; group1 := cap |}).

(** [re.search(r, s)]: the leftmost match. *)
Fixpoint search (r : regex) (s : str) : option match_obj :=
  match match_at r s with
  | Some m => Some m
  | None =>
      match s with
      | _ :: t => search r t
      | [] => None
      end
  end.

(** [pattern.finditer(s)]: the successive non-overlapping matches, left
    to right.  [skip] counts the characters still covered by the previous
    match.  After an empty match the scan moves one character on. *)
Fixpoint finditer_from (r : regex) (skip : nat) (s : str) : list match_obj :=
  match skip with
  | S n =>
      match s with
      | _ :: t => finditer_from r n t
      | [] => []
      end
  | O =>
      match match_at r s with
      | Some m =>
          m :: match s with
               | _ :: t => finditer_from r (pred (length (group0 m))) t
               | [] => []
               end
      | None =>
          match s with
          | _ :: t => finditer_from r 0 t
          | [] => []
          end
      end
  end.

Definition finditer (r : regex) (s : str) : list match_obj :=
  finditer_from r 0 s.

(** What a pattern may consume: [sem r w rest cap cap'] says that [r]
    can match the text [w] when followed by [rest], turning group 1 from
    [cap] into [cap']. *)
Fixpoint sem (r : regex) (w rest : str) (cap cap' : option str) : Prop :=
  match r with
  | Chr c => w = [c] /\ cap' = cap
  | Cls p => (exists c, w = [c] /\ p c = true) /\ cap' = cap
  | Cat r1 r2 =>
      exists w1 w2 capm,
        w = w1 ++ w2 /\ sem r1 w1 (w2 ++ rest) cap capm /\
        sem r2 w2 rest capm cap'
  | Alt r1 r2 => sem r1 w rest cap cap' \/ sem r2 w rest cap cap'
  | Opt r1 => sem r1 w rest cap cap' \/ (w = [] /\ cap' = cap)
  | Star p | LazyStar p => Forall (fun c => p c = true) w /\ cap' = cap
  | Plus p => w <> [] /\ Forall (fun c => p c = true) w /\ cap' = cap
  | Group r1 => (exists c0, sem r1 w rest cap c0) /\ cap' = Some w
  | Eos => w = [] /\ (rest = [] \/ rest = ["010"%char]) /\ cap' = cap
  | Eps => w = [] /\ cap' = cap
  end.

End Re.

(** ** The matcher: [URL_REGEX], [sanitize_url], [friendly_name_from_url] *)

(** [[A-Fa-f0-9]] *)
Definition hex_digit (c : ascii) : bool :=
  let n := nat_of_ascii c in
  ((65 <=? n) && (n <=? 70)) || ((97 <=? n) && (n <=? 102))
  || ((48 <=? n) && (n <=? 57)).

(** [[^\s\]]] *)
Definition url_char (c : ascii) : bool :=
  negb (Py.isspace c || Ascii.eqb c "]").

(** The pattern of the program, written here in verbose form; group 1 is
    the whole match:
<<
    ( https?://  [^\s\]]*?
      (?: packages/ota-api/package/[A-Fa-f0-9]+\.zip | payload\.(?:bin|zip) )
      (?: \? [^\s\]]* )?  )
>> *)
Definition URL_REGEX : Re.regex :=
  Re.Group
    (Re.Seq
       [ Re.Lit (lit "http"); Re.Opt (Re.Chr "s"); Re.Lit (lit "://");
         Re.LazyStar url_char;
         Re.Alt
           (Re.Seq [ Re.Lit (lit "packages/ota-api/package/");
                     Re.Plus hex_digit; Re.Lit (lit ".zip") ])
           (Re.Seq [ Re.Lit (lit "payload.");
                     Re.Alt (Re.Lit (lit "bin")) (Re.Lit (lit "zip")) ]);
         Re.Opt (Re.Seq [ Re.Chr "?"; Re.Star url_char ]) ]).

(** [/package/([A-Fa-f0-9]+)\.zip(?:\?|$)] *)
Definition PACKAGE_REGEX : Re.regex :=
  Re.Seq
    [ Re.Lit (lit "/package/"); Re.Group (Re.Plus hex_digit);
      Re.Lit (lit ".zip"); Re.Alt (Re.Chr "?") Re.Eos ].

(** [u.strip()] followed by a [strip] of the three characters
    closing bracket, single quote and double quote. *)
Definition sanitize_url (u : str) : str :=
  Py.strip_chars ["]"; "'"; "034"]%char (Py.strip u).

(** The [tail] of [friendly_name_from_url]:
    [url.rstrip('/').split('/')[-1] or "update.zip"]. *)
Definition url_tail (url : str) : str :=
  Py.or_else
    (Py.last_item (Py.split "/" (Py.rstrip_chars ["/"%char] url)))
    (lit "update.zip").

Definition friendly_name_from_url (url : str) : str :=
  match Re.search PACKAGE_REGEX url with
  | Some m => lit "ota_" ++ default [] (Re.group1 m) ++ lit ".zip"
  | None =>
      let tail := url_tail url in
      if Py.endswith tail (lit ".zip") then tail else lit "update.zip"
  end.

(** A package-hash segment of a URL: [/package/], a non-empty run of
    hexadecimal digits, [.zip], and then the end of the URL (an optional
    final line feed apart) or a question mark. *)
Definition package_hash_at (url pre h post : str) : Prop :=
  url = pre ++ lit "/package/" ++ h ++ lit ".zip" ++ post /\
  h <> [] /\ Forall (fun c => hex_digit c = true) h /\
  (post = [] \/ post = ["010"%char] \/ exists q, post = "?"%char :: q).

Definition has_package_hash (url : str) : Prop :=
  exists pre h post, package_hash_at url pre h post.

(** The canonical URLs of one line, in the order of the parser's loop:
    [sanitize_url(m.group(1)) for m in URL_REGEX.finditer(line)]. *)
Definition line_urls (line : str) : list str :=
  map (fun m => sanitize_url (default [] (Re.group1 m)))
      (Re.finditer URL_REGEX line).

(** The URL of the worked example and a log line around it: the URL, an optional closing character, one whitespace
    character, more text. *)
Definition deadbeef_url : str :=
  lit "https://android.googleapis.com/packages/ota-api/package/DEADBEEF01.zip?sig=abc".

(** A URL whose query string holds a slash and backslashes, and a log
    line around it. *)
Definition backslash_url : str :=
  lit "https://h/payload.zip?x=/..\..\evil.zip".

Definition backslash_line : str :=
  lit "I/cronet: GET " ++ backslash_url ++ lit " queued" ++ ["010"%char].

Definition deadbeef_line (closing : str) (ws : ascii) : str :=
  lit "11-04 09:59:01.250 I/UpdateEngine( 1234): fetching "
  ++ deadbeef_url ++ closing ++ ws :: lit "for install" ++ ["010"%char].

(** ** The one-shot latch: [OneShotController] *)
Module OneShotController.

(** [first_url] is [None] until the first notification; [hit_event] is the
    flag of the [threading.Event]. *)
Record t : Type := { first_url : option str; hit_event : bool }.

(** [__init__] *)
Definition init : t := {| first_url := None; hit_event := false |}.

Definition on_new_url (url : str) (c : t) : t :=
  let url := sanitize_url url in
  if negb (hit_event c)
  then {| first_url := Some url; hit_event := true |}
  else c.

(** The notifications of a whole run, oldest first. *)
Definition notify_all (urls : list str) (c : t) : t :=
  fold_left (fun c u => on_new_url u c) urls c.

End OneShotController.

(** ** The capture session: [OtaCaptor] *)
Module OtaCaptor.

(** The line terminator written after each URL. *)
Definition nl : str := ["010"%char].

(** A statement either completes or lets an exception escape; both carry
    the state reached. *)
Inductive outcome (A : Type) : Type :=
| Done (a : A)
| Raised (a : A).
Arguments Done {A} a.
Arguments Raised {A} a.

Definition state_of {A : Type} (o : outcome A) : A :=
  match o with Done a | Raised a => a end.

Definition raised {A : Type} (o : outcome A) : bool :=
  match o with Done _ => false | Raised _ => true end.

(** Two outcomes of the same kind whose states are related. *)
Definition orel {A C : Type} (R : A -> C -> Prop)
    (o1 : outcome A) (o2 : outcome C) : Prop :=
  match o1, o2 with
  | Done a, Done c => R a c
  | Raised a, Raised c => R a c
  | _, _ => False
  end.

(** A [for] loop whose body may raise: the first exception ends it. *)
Fixpoint for_each {A B : Type} (body : B -> A -> outcome A)
    (items : list B) (a : A) : outcome A :=
  match items with
  | [] => Done a
  | x :: rest =>
      match body x a with
      | Done a' => for_each body rest a'
      | Raised a' => Raised a'
      end
  end.

(** How many times a string occurs in a list of strings. *)
Definition occurrences (u : str) (l : list str) : nat :=
  count_occ (List.list_eq_dec Ascii.ascii_dec) l u.

Section Session.

(** The state owned by the registered listener. *)
Context {L : Type}.

(** A registered [on_new_url] callable: the listener's state after the
    call, and whether the call raised an [Exception]. *)
Definition callback : Type := str -> L -> L * bool.

(** The environment of the URL file: whether appending (write and flush)
    the line of this URL raises. *)
Variable url_write_fails : str -> bool.

(** What the body of the parser's loop reads and mutates. *)
Record parser_state : Type := {
  _seen : gset str;                 (* self._seen *)
  url_file : list str;              (* the writes made to self.url_file *)
  listener : L;                     (* the listener's own state *)
  notified : list str;              (* calls of self.on_new_url, in order *)
  downloads : list (str * str)      (* calls of download_with_progress *)
}.

Definition set_seen (s : gset str) (p : parser_state) : parser_state :=
  {| _seen := s; url_file := url_file p; listener := listener p;
     notified := notified p; downloads := downloads p |}.

Definition append_url_file (w : str) (p : parser_state) : parser_state :=
  {| _seen := _seen p; url_file := url_file p ++ [w]; listener := listener p;
     notified := notified p; downloads := downloads p |}.

(** The call [self.on_new_url(url)]: the listener runs, and the call
    raises when the listener does. *)
Definition invoke (cb : callback) (url : str) (p : parser_state)
    : outcome parser_state :=
  let p' := {| _seen := _seen p; url_file := url_file p;
               listener := fst (cb url (listener p));
               notified := notified p ++ [url]; downloads := downloads p |} in
  if snd (cb url (listener p)) then Raised p' else Done p'.

(** [try: ... except Exception: pass] *)
Definition swallow {A : Type} (o : outcome A) : A := state_of o.

Definition call_download (url name : str) (p : parser_state) : parser_state :=
  {| _seen := _seen p; url_file := url_file p; listener := listener p;
     notified := notified p; downloads := downloads p ++ [(url, name)] |}.

(** The constructor arguments kept by the session. *)
Record config : Type := {
  auto_download : bool;
  on_new_url : option callback
}.

(** The body of [for m in URL_REGEX.finditer(line)], for one canonical
    URL. *)
Definition handle_url (cfg : config) (url : str) (p : parser_state)
    : outcome parser_state :=
  if decide (url ∈ _seen p) then Done p
  else
    let p := set_seen ({[url]} ∪ _seen p) p in
    if url_write_fails url then Raised p
    else
      let p := append_url_file (url ++ nl) p in
      let p := match on_new_url cfg with
               | Some cb => swallow (invoke cb url p)
               | None => p
               end in
      let p := if auto_download cfg
               then call_download url (friendly_name_from_url url) p
               else p in
      Done p.

(** The parser's state in a new session: [self._seen = set()], an
    empty URL file, nothing notified or downloaded yet. *)
Definition new_parser (l0 : L) : parser_state :=
  {| _seen := ∅; url_file := []; listener := l0;
     notified := []; downloads := [] |}.

(** The scan of one line by the parser. *)
Definition scan_line (cfg : config) (line : str) (p : parser_state)
    : outcome parser_state :=
  for_each (handle_url cfg) (line_urls line) p.

(** The scan of successive lines; the first exception ends the loop. *)
Definition scan_lines (cfg : config) (lines : list str) (p : parser_state)
    : outcome parser_state :=
  for_each (scan_line cfg) lines p.

(** Every URL in the dedup set has one line in the URL file, one
    notification if a listener is registered and one download if
    downloads are automatic; the other URLs have none. *)
Definition recorded_once (cf : config) (p : parser_state) : Prop :=
  forall u,
    let n := if decide (u ∈ _seen p) then 1 else 0 in
    occurrences (u ++ nl) (url_file p) = n /\
    occurrences u (notified p)
      = match on_new_url cf with Some _ => n | None => 0 end /\
    occurrences u (map fst (downloads p))
      = (if auto_download cf then n else 0).

(** The session's part of the parser's state. *)
Definition same_session (p q : parser_state) : Prop :=
  _seen p = _seen q /\ url_file p = url_file q /\ downloads p = downloads q.

(** Reference configurations: the same listener made silent about its
    exceptions, and no listener at all. *)
Definition never_raising (cb : callback) : callback :=
  fun url l => (fst (cb url l), false).

Definition calm (cf : config) : config :=
  {| auto_download := auto_download cf;
     on_new_url := option_map never_raising (on_new_url cf) |}.

Definition quiet (cf : config) : config :=
  {| auto_download := auto_download cf; on_new_url := None |}.

(** *** The threads of a session *)

(** The logcat process as [poll] and [terminate] see it: [Terminating]
    has been signalled and has not exited yet. *)
Inductive process : Type := Running | Terminating | Exited.

(** [self.proc.poll() is None] *)
Definition poll_is_none (pr : process) : bool :=
  match pr with Exited => false | _ => true end.

(** [self.proc.terminate()] *)
Definition terminate (pr : process) : process :=
  match pr with Running => Terminating | other => other end.

Record t : Type := {
  cfg : config;
  _queue : list str;              (* self._queue, head first *)
  _stop : bool;                   (* self._stop *)
  proc : option process;          (* self.proc *)
  log_file : list str;            (* the writes made to self.log_file *)
  parser_line : option str;       (* the parser's [line] between get and put *)
  parser_alive : bool;            (* no exception has ended the parser *)
  parser : parser_state;
  fed : list str                  (* history: the lines put by [start] *)
}.

(** [__init__]: the session is created without a process,
    [self.proc = None]. *)
Definition created (cf : config) (l0 : L) : t :=
  {| cfg := cf; _queue := []; _stop := false; proc := None;
     log_file := []; parser_line := None; parser_alive := true;
     parser := new_parser l0; fed := [] |}.

(** [__init__] followed by the [Popen] of [start]: the session as its
    threads find it when nothing has stopped it before. *)
Definition init (cf : config) (l0 : L) : t :=
  {| cfg := cf; _queue := []; _stop := false; proc := Some Running;
     log_file := []; parser_line := None; parser_alive := true;
     parser := new_parser l0; fed := [] |}.

(** [stop]: set the flag unless set, then terminate a process that has
    not exited. *)
Definition stop (c : t) : t :=
  let '(Build_t cf q st pr lf pl pa ps fd) := c in
  let st' := if negb st then true else st in
  let pr' := match pr with
             | Some x => if poll_is_none x then Some (terminate x) else pr
             | None => pr
             end in
  Build_t cf q st' pr' lf pl pa ps fd.

(** The atomic actions of the threads.  [start] reads a line and puts it
    on the queue; the writer and the parser each test the stop flag and
    take the head of the queue; the parser puts its line back and scans
    it.  [Popen] is the launch of logcat by [start], which a session
    makes once: [cmd_oneshot] runs [start] in a thread of its own, so
    the launch may come after other events, a [Stop] included. *)
Inductive event : Type :=
| Feed (line : str)
| WriterStep
| ParserGet
| ParserScan
| Stop
| ProcExit
| Popen.

Definition step (e : event) (c : t) : t :=
  let '(Build_t cf q st pr lf pl pa ps fd) := c in
  match e with
  | Feed line =>
      match pr with
      | Some x =>
          if poll_is_none x
          then Build_t cf (q ++ [line]) st pr lf pl pa ps (fd ++ [line])
          else c
      | None => c
      end
  | WriterStep =>
      if st then c
      else match q with
           | line :: q' => Build_t cf q' st pr (lf ++ [line]) pl pa ps fd
           | [] => c
           end
  | ParserGet =>
      if st || negb pa then c
      else match pl, q with
           | None, line :: q' => Build_t cf q' st pr lf (Some line) pa ps fd
           | _, _ => c
           end
  | ParserScan =>
      match pl with
      | Some line =>
          match scan_line cf line ps with
          | Done ps' => Build_t cf (q ++ [line]) st pr lf None pa ps' fd
          | Raised ps' => Build_t cf (q ++ [line]) st pr lf None false ps' fd
          end
      | None => c
      end
  | Stop => stop c
  | ProcExit => Build_t cf q st (option_map (fun _ => Exited) pr) lf pl pa ps fd
  | Popen =>
      match pr with
      | None => Build_t cf q st (Some Running) lf pl pa ps fd
      | Some _ => c
      end
  end.

(** A schedule is executed from left to right. *)
Definition run (sched : list event) (c : t) : t :=
  fold_left (fun c e => step e c) sched c.

(** *** [stop] called by two threads *)

(** Where a caller of [stop] stands: before the test of the flag, before
    [self._stop.set()], before the [try] block, or returned. *)
Inductive stop_pc : Type := AtTest | AtSet | AtProc | Returned.

Definition stop_atom (pc : stop_pc) (c : t) : stop_pc * t :=
  let '(Build_t cf q st pr lf pl pa ps fd) := c in
  match pc with
  | AtTest => (if negb st then AtSet else AtProc, c)
  | AtSet => (AtProc, Build_t cf q true pr lf pl pa ps fd)
  | AtProc =>
      (Returned,
       Build_t cf q st
         (match pr with
          | Some x => if poll_is_none x then Some (terminate x) else pr
          | None => pr
          end) lf pl pa ps fd)
  | Returned => (Returned, c)
  end.

(** Two callers; the schedule names the caller that moves ([true] for
    the first). *)
Definition stop_step (first : bool) (s : stop_pc * stop_pc * t)
    : stop_pc * stop_pc * t :=
  let '(pc1, pc2, c) := s in
  if first
  then let (pc1', c') := stop_atom pc1 c in (pc1', pc2, c')
  else let (pc2', c') := stop_atom pc2 c in (pc1, pc2', c').

Definition stop_run (sched : list bool) (s : stop_pc * stop_pc * t)
    : stop_pc * stop_pc * t :=
  fold_left (fun s b => stop_step b s) sched s.

(** The lines taken from the queue by no one yet, or held by the parser
    between its [get] and its [put]. *)
Definition pending (c : t) : list str :=
  _queue c ++ match parser_line c with Some line => [line] | None => [] end.

(** What two interleaved calls of [stop] keep true, [c0] being the
    session before the calls: a caller past [self._stop.set()] sees the
    flag set, and once a caller has returned the session is [stop c0]. *)
Definition stop_inv (c0 : t) (s : stop_pc * stop_pc * t) : Prop :=
  let '(pc1, pc2, c) := s in
  exists st' pr',
    c = Build_t (cfg c0) (_queue c0) st' pr' (log_file c0) (parser_line c0)
          (parser_alive c0) (parser c0) (fed c0) /\
    (st' = _stop c0 \/ st' = true) /\
    (pr' = proc c0 \/ pr' = proc (stop c0)) /\
    (forall pc, pc = pc1 \/ pc = pc2 ->
       (pc = AtProc -> st' = true) /\
       (pc = Returned -> st' = true /\ pr' = proc (stop c0))).

End Session.

(** A session whose listener keeps the URLs it is told, on a disk that
    accepts no write to the URL file. *)
Definition logging_config : @config (list str) :=
  {| auto_download := false;
     on_new_url := Some (fun u l => (l ++ [u], false)) |}.

Definition payload_line : str :=
  lit "I/update_engine: Downloading https://example.com/ota/payload.bin now"
  ++ nl.

(** A log line with two URLs. *)
Definition two_url_line : str :=
  lit "I/update_engine: trying " ++ deadbeef_url
  ++ lit " then https://example.com/ota/payload.bin" ++ nl.

End OtaCaptor.

(** ** The one-shot workflow: [cmd_oneshot] *)
Module OneShot.
Import OtaCaptor.

(** The callable registered by [cmd_oneshot], [controller.on_new_url]; it
    raises nothing. *)
Definition controller_callback : @callback OneShotController.t :=
  fun url c => (OneShotController.on_new_url url c, false).

(** [OtaCaptor(adb, auto_download=False, on_new_url=controller.on_new_url)] *)
Definition oneshot_config : @config OneShotController.t :=
  {| auto_download := false; on_new_url := Some controller_callback |}.

(** [timeout = args.timeout if args.timeout > 0 else 300] *)
Definition effective_timeout (arg : Z) : Z :=
  if (0 <? arg)%Z then arg else 300%Z.

(** The caller of [controller.hit_event.wait(timeout=timeout)]: still
    blocked with so many seconds left, returned with the value of the
    flag, or left by the [OverflowError] that a wait raises when its
    timeout is larger than the locks of the platform accept. *)
Inductive waiter : Type :=
| Waiting (remaining : nat)
| Woken (flag : bool)
| Overflowed.

(** The blocked caller looks at the flag and at its clock. *)
Definition wait_poll (c : OneShotController.t) (w : waiter) : waiter :=
  match w with
  | Waiting n =>
      if OneShotController.hit_event c then Woken true
      else match n with
           | O => Woken false
           | S _ => Waiting n
           end
  | Woken b => Woken b
  | Overflowed => Overflowed
  end.

(** The call of [wait].  A set flag is returned at once; otherwise the
    caller blocks on a lock with the timeout, and a timeout above
    [threading.TIMEOUT_MAX] raises [OverflowError].  The constant
    depends on the platform (9223372036 seconds on Linux, 4294967 on
    Windows), so it is an argument here. *)
Definition wait_begin (TIMEOUT_MAX : Z) (timeout : Z)
    (c : OneShotController.t) : waiter :=
  if OneShotController.hit_event c then Woken true
  else if (TIMEOUT_MAX <? timeout)%Z then Overflowed
  else wait_poll c (Waiting (Z.to_nat timeout)).

(** The state a blocked caller is in while the latch is not released. *)
Definition unreleased (n : nat) : waiter :=
  match n with
  | O => Woken false
  | S _ => Waiting n
  end.

(** What [cmd_oneshot] gets from [wait]: the flag set and the URL then
    read from the controller, the flag unset, or an exception, which
    nothing in [cmd_oneshot] catches. *)
Inductive wait_result : Type :=
| FirstUrl (url : option str)
| TimedOut
| WaitRaised.

Definition result_of (c : OneShotController.t) (w : waiter)
    : option wait_result :=
  match w with
  | Waiting _ => None
  | Woken true => Some (FirstUrl (OneShotController.first_url c))
  | Woken false => Some TimedOut
  | Overflowed => Some WaitRaised
  end.

(** The controller is what its notifications made it, the URL file has
    one line for each of them, and they are canonical URLs. *)
Definition in_step (p : @parser_state OneShotController.t) : Prop :=
  listener p = OneShotController.notify_all (notified p) OneShotController.init /\
  url_file p = map (fun u => u ++ nl) (notified p) /\
  Forall (fun u => sanitize_url u = u) (notified p).

(** What the caller of [wait] can rely on, [t0] being the timeout in
    seconds, [t] the seconds passed and [over] what made the wait
    raise. *)
Definition wait_inv (over : Prop) (t0 t : nat)
    (s : @OtaCaptor.t OneShotController.t * waiter) : Prop :=
  cfg (fst s) = oneshot_config /\
  match snd s with
  | Woken true => OneShotController.hit_event (listener (parser (fst s))) = true
  | Woken false => t0 <= t
  | Waiting n =>
      OneShotController.hit_event (listener (parser (fst s))) = false /\
      n + t = t0 /\ 0 < n
  | Overflowed => over
  end.

Section System.
Variable TIMEOUT_MAX : Z.
Variable url_write_fails : str -> bool.

(** The session and the waiting caller run side by side; the clock ticks
    once a second. *)
Inductive sys_event : Type :=
| Sess (e : event)
| Tick.

Definition controller_of (c : @OtaCaptor.t OneShotController.t)
    : OneShotController.t :=
  listener (parser c).

Definition sys_step (e : sys_event)
    (s : @OtaCaptor.t OneShotController.t * waiter)
    : @OtaCaptor.t OneShotController.t * waiter :=
  let (c, w) := s in
  match e with
  | Sess e' =>
      let c' := step url_write_fails e' c in
      (c', wait_poll (controller_of c') w)
  | Tick =>
      (c, match w with
          | Waiting n => wait_poll (controller_of c) (Waiting (pred n))
          | other => other
          end)
  end.

Definition sys_run (sched : list sys_event)
    (s : @OtaCaptor.t OneShotController.t * waiter)
    : @OtaCaptor.t OneShotController.t * waiter :=
  fold_left (fun s e => sys_step e s) sched s.

(** The number of seconds that pass in a schedule. *)
Fixpoint ticks (sched : list sys_event) : nat :=
  match sched with
  | [] => 0
  | Tick :: rest => S (ticks rest)
  | Sess _ :: rest => ticks rest
  end.

(** [cmd_oneshot] up to the return of [wait]: the session is created
    and [start] runs in a thread of its own; [before] is what the
    threads of the session do until the call of [wait], [during] what
    happens from then on.  The launch of logcat is an event of either. *)
Definition cmd_oneshot (arg_timeout : Z) (before : list event)
    (during : list sys_event)
    : @OtaCaptor.t OneShotController.t * waiter :=
  let cap := run url_write_fails before
               (created oneshot_config OneShotController.init) in
  sys_run during
    (cap, wait_begin TIMEOUT_MAX (effective_timeout arg_timeout)
            (controller_of cap)).

End System.
End OneShot.

(** ** Vocabulary for the properties of the matcher *)

(** Every character that a pattern can consume satisfies [P]. *)
Fixpoint all_chars (P : ascii -> Prop) (r : Re.regex) : Prop :=
  match r with
  | Re.Chr c => P c
  | Re.Cls p | Re.Star p | Re.LazyStar p | Re.Plus p =>
      forall c, p c = true -> P c
  | Re.Cat r1 r2 | Re.Alt r1 r2 => all_chars P r1 /\ all_chars P r2
  | Re.Opt r1 | Re.Group r1 => all_chars P r1
  | Re.Eos | Re.Eps => True
  end.

(** [u] occurs in [s], as [u in s] in Python. *)
Definition infix_of (u s : str) : Prop :=
  exists pre post, s = pre ++ u ++ post.

(** One of the three characters that [sanitize_url] strips. *)
Definition closing_char (c : ascii) : bool :=
  Py.char_in ["]"; "'"; "034"]%char c.

(** A canonical URL, as the parser's loop writes them: not empty, of
    characters that a URL may have, and left alone by [sanitize_url]. *)
Definition canonical (u : str) : Prop :=
  u <> [] /\ Forall (fun c => url_char c = true) u /\ sanitize_url u = u.

(** What [URL_REGEX] looks for after the host and the path: the package
    of an OTA with its hash, or a payload. *)
Definition ota_target (t : str) : Prop :=
  (exists h, h <> [] /\ Forall (fun c => hex_digit c = true) h /\
             t = lit "packages/ota-api/package/" ++ h ++ lit ".zip") \/
  t = lit "payload.bin" \/ t = lit "payload.zip".

(** The text of an OTA URL: the scheme, [://], characters of a URL, a
    target, and a query string or nothing. *)
Definition ota_url (w : str) : Prop :=
  exists scheme mid t query,
    w = scheme ++ lit "://" ++ mid ++ t ++ query /\
    (scheme = lit "http" \/ scheme = lit "https") /\
    Forall (fun c => url_char c = true) mid /\
    ota_target t /\
    (query = [] \/
     exists q, query = "?"%char :: q /\ Forall (fun c => url_char c = true) q).

(** [u] comes from one of the lines [fed]. *)
Definition from_log (fed : list str) (u : str) : Prop :=
  exists line, In line fed /\ In u (line_urls line).

(** [u] is in the dedup set of the parser, was notified, has a line in
    the URL file or was given to the download. *)
Definition reported {L : Type} (p : @OtaCaptor.parser_state L) (u : str)
    : Prop :=
  u ∈ OtaCaptor._seen p \/ In u (OtaCaptor.notified p) \/
  In (u ++ OtaCaptor.nl) (OtaCaptor.url_file p) \/
  In u (map fst (OtaCaptor.downloads p)).

(** The URLs of [urls] that are not in [seen], each once, in the order
    of their first occurrence. *)
Fixpoint distinct_from (seen : gset str) (urls : list str) : list str :=
  match urls with
  | [] => []
  | u :: rest =>
      if decide (u ∈ seen) then distinct_from seen rest
      else u :: distinct_from ({[u]} ∪ seen) rest
  end.

(** What the parser's loop has added when it has gone through [urls]. *)
Definition added {L : Type} (cf : @OtaCaptor.config L) (urls : list str)
    (p p' : @OtaCaptor.parser_state L) : Prop :=
  let D := distinct_from (OtaCaptor._seen p) urls in
  OtaCaptor._seen p' = list_to_set urls ∪ OtaCaptor._seen p /\
  OtaCaptor.url_file p' = OtaCaptor.url_file p ++ map (fun u => u ++ OtaCaptor.nl) D /\
  OtaCaptor.notified p'
    = OtaCaptor.notified p ++ match OtaCaptor.on_new_url cf with Some _ => D | None => [] end /\
  OtaCaptor.downloads p'
    = OtaCaptor.downloads p ++ (if OtaCaptor.auto_download cf
                      then map (fun u => (u, friendly_name_from_url u)) D
                      else []).

(** ** The names of the two files of a session *)

(** [f"ota_raw_{self._stamp}.log"] *)
Definition log_file_name (stamp : str) : str :=
  lit "ota_raw_" ++ stamp ++ lit ".log".

(** [f"ota_urls_{self._stamp}.txt"] *)
Definition url_file_name (stamp : str) : str :=
  lit "ota_urls_" ++ stamp ++ lit ".txt".

(** ** The [download-latest] workflow: [cmd_download_latest] *)
Module DownloadLatest.

(** A file of the current directory: its name, its modification time
    as [os.path.getmtime] orders it, and its text. *)
Record file : Type := { name : str; mtime : Z; content : str }.

(** [f.startswith("ota_urls_") and f.endswith(".txt")] *)
Definition is_url_list (f : str) : bool :=
  Py.startswith f (lit "ota_urls_") && Py.endswith f (lit ".txt").

(** [max(files, key=os.path.getmtime)] on a non-empty list: the first
    of the files with the greatest key. *)
Fixpoint max_by_mtime (best : file) (rest : list file) : file :=
  match rest with
  | [] => best
  | f :: rest' =>
      if (mtime best <? mtime f)%Z then max_by_mtime f rest'
      else max_by_mtime best rest'
  end.

(** Reading in text mode: a carriage return, followed by a line feed or
    not, is read as a line feed. *)
Fixpoint universal_newlines (s : str) : str :=
  match s with
  | [] => []
  | c :: t =>
      if Ascii.eqb c "013" then
        match t with
        | c' :: t' =>
            if Ascii.eqb c' "010" then "010"%char :: universal_newlines t'
            else "010"%char :: universal_newlines t
        | [] => ["010"%char]
        end
      else c :: universal_newlines t
  end.

(** [for ln in f]: the lines of a text, each with its line feed, the
    last one possibly without. *)
Fixpoint file_lines (s : str) : list str :=
  match s with
  | [] => []
  | c :: t =>
      if Ascii.eqb c "010" then [c] :: file_lines t
      else match file_lines t with
           | l :: ls => (c :: l) :: ls
           | [] => [[c]]
           end
  end.

(** [[ln.strip() for ln in open(latest) if ln.strip()]] *)
Definition stripped_lines (text : str) : list str :=
  List.filter (fun l => negb (bool_decide (l = [])))
    (map Py.strip (file_lines (universal_newlines text))).

(** What [cmd_download_latest] does: one of its two warnings, or the
    call [download_with_progress(url, out)]. *)
Inductive result : Type :=
| NoUrlFiles
| EmptyUrlList (latest : str)
| Download (url out : str).

Definition cmd_download_latest (dir : list file) : result :=
  match List.filter (fun f => is_url_list (name f)) dir with
  | [] => NoUrlFiles
  | f :: rest =>
      let latest := max_by_mtime f rest in
      match rev (stripped_lines (content latest)) with
      | [] => EmptyUrlList (name latest)
      | last_line :: _ =>
          let url := sanitize_url last_line in
          Download url (friendly_name_from_url url)
      end
  end.

(** [f] is a URL list of the directory, and none of them is newer. *)
Definition newest_url_list (dir : list file) (f : file) : Prop :=
  In f dir /\ is_url_list (name f) = true /\
  forall g, In g dir -> is_url_list (name g) = true -> (mtime g <= mtime f)%Z.

End DownloadLatest.

(** ** The download: [download_with_progress] *)
Module Download.

(** [chunk = 1024 * 256] *)
Definition chunk : nat := N.to_nat 262144.

(** What a call [resp.read(amt)] does: it returns bytes, none at the
    end of the response; it raises; or it does not return, the
    connection being opened without a timeout. *)
Inductive read_result : Type :=
| Returns (buf : list Byte.byte)
| Raises
| Blocks.

(** [urlopen(url)] raises, or gives a response: its [length], taken from
    the header of the response, and what its successive reads do, the
    first argument counting the reads and the second being the size
    asked for. *)
Inductive connection : Type :=
| Refused
| Opened (length : option nat) (reads : nat -> nat -> read_result).

(** The file at [out_path] ([None]: not touched), the bytes announced
    to the progress bar, and whether [Saved] was printed. *)
Record effect : Type := {
  out_file : option (list Byte.byte);
  advanced : nat;
  saved : bool
}.

(** The call has returned; or it is blocked in a read for ever; or it is
    still in its loop after the reads that were looked at. *)
Inductive ending : Type :=
| Returned (e : effect)
| Blocked (e : effect)
| Reading (e : effect).

(** The loop [while True: buf = resp.read(chunk) ...], followed for
    [fuel] reads from read number [i]; with the progress bar,
    [prog.update(t, advance=len(buf))] follows each write.  The file is
    opened for writing before the first read, and its writes are taken
    to succeed. *)
Fixpoint copy_loop (fuel : nat) (with_bar : bool)
    (reads : nat -> nat -> read_result) (i : nat)
    (written : list Byte.byte) (adv : nat) : ending :=
  let so_far ok := {| out_file := Some written; advanced := adv;
                      saved := ok |} in
  match fuel with
  | O => Reading (so_far false)
  | S fuel' =>
      match reads i chunk with
      | Raises => Returned (so_far false)
      | Blocks => Blocked (so_far false)
      | Returns [] => Returned (so_far true)
      | Returns buf =>
          copy_loop fuel' with_bar reads (S i) (written ++ buf)
            (if with_bar then adv + length buf else adv)
      end
  end.

(** [download_with_progress] after [sanitize_url]: [_RICH] says whether
    the console can show a bar, shown when [resp.length] is known and not
    zero. *)
Definition download_with_progress (_RICH : bool) (conn : connection)
    (fuel : nat) : ending :=
  match conn with
  | Refused => Returned {| out_file := None; advanced := 0; saved := false |}
  | Opened len reads =>
      let total := default 0 len in
      let with_bar := _RICH && negb (total =? 0) in
      copy_loop fuel with_bar reads 0 [] 0
  end.

(** A response that announces ten bytes and delivers three, in two
    reads, before it ends. *)
Definition short_response : connection :=
  Opened (Some 10)
    (fun i _ =>
       match i with
       | 0 => Returns [Byte.x50; Byte.x4b]
       | 1 => Returns [Byte.x03]
       | _ => Returns []
       end).

End Download.

(** * Properties *)

(** ** Python strings *)
Module PyFacts.
Import Py.

Lemma startswith_app (p s : str) : startswith (p ++ s) p = true.
Proof.
  induction p as [|a p IH]; simpl; [reflexivity|].
  rewrite Ascii.eqb_refl. exact IH.
Qed.


Lemma endswith_app (a p : str) : endswith (a ++ p) p = true.
Proof. unfold endswith. rewrite rev_app_distr. apply startswith_app. Qed.




Lemma last_cons_nonempty (x : str) (l : list str) :
  l <> [] -> List.last (x :: l) [] = List.last l [].
Proof. destruct l; [congruence|reflexivity]. Qed.



End PyFacts.

(** ** The backtracking matcher is sound *)
Module ReFacts.
Import Re.

Lemma take_consumed (w rest : str) :
  take (length (w ++ rest) - length rest) (w ++ rest) = w.
Proof.
  rewrite length_app.
  replace (length w + length rest - length rest) with (length w) by lia.
  apply take_app_length.
Qed.

Section Sound.
Context {R : Type}.

Lemma star_greedy_sound p s cap (k : @cont R) x :
  star_greedy p s cap k = Some x ->
  exists w rest, s = w ++ rest /\ Forall (fun c => p c = true) w /\
                 k rest cap = Some x.
Proof.
  induction s as [|c t IH]; simpl; intros H.
  - exists [], []. auto.
  - destruct (p c) eqn:Hp.
    + destruct (star_greedy p t cap k) eqn:Hg.
      * injection H as ->.
        destruct (IH eq_refl) as (w & rest & -> & Hw & Hk).
        exists (c :: w), rest. auto.
      * exists [], (c :: t). auto.
    + exists [], (c :: t). auto.
Qed.

Lemma star_lazy_sound p s cap (k : @cont R) x :
  star_lazy p s cap k = Some x ->
  exists w rest, s = w ++ rest /\ Forall (fun c => p c = true) w /\
                 k rest cap = Some x.
Proof.
  induction s as [|c t IH]; simpl; intros H.
  - destruct (k [] cap) eqn:Hk; [|discriminate].
    exists [], []. rewrite Hk. auto.
  - destruct (k (c :: t) cap) eqn:Hk.
    + exists [], (c :: t). rewrite Hk. auto.
    + destruct (p c) eqn:Hp; [|discriminate].
      destruct (IH H) as (w & rest & -> & Hw & Hk').
      exists (c :: w), rest. auto.
Qed.

Theorem exec_sound r : forall s cap (k : @cont R) x,
  exec r s cap k = Some x ->
  exists w rest cap',
    s = w ++ rest /\ sem r w rest cap cap' /\ k rest cap' = Some x.
Proof.
  induction r as [c|p|r1 IH1 r2 IH2|r1 IH1 r2 IH2|r1 IH1|p|p|p|r1 IH1| |];
    intros s cap k x H; simpl in H.
  - destruct s as [|a t]; [discriminate|].
    destruct (Ascii.eqb a c) eqn:E; [|discriminate].
    apply Ascii.eqb_eq in E. subst a.
    exists [c], t, cap. simpl. auto.
  - destruct s as [|a t]; [discriminate|].
    destruct (p a) eqn:E; [|discriminate].
    exists [a], t, cap. simpl. eauto 6.
  - apply IH1 in H as (w1 & rest1 & capm & -> & Hs1 & H).
    apply IH2 in H as (w2 & rest & cap' & -> & Hs2 & H).
    exists (w1 ++ w2), rest, cap'. rewrite <- app_assoc.
    split; [reflexivity|]. split; [|exact H].
    simpl. exists w1, w2, capm. auto.
  - destruct (exec r1 s cap k) eqn:E.
    + injection H as ->. apply IH1 in E as (w & rest & cap' & ? & ? & ?).
      exists w, rest, cap'. simpl. auto.
    + apply IH2 in H as (w & rest & cap' & ? & ? & ?).
      exists w, rest, cap'. simpl. auto.
  - destruct (exec r1 s cap k) eqn:E.
    + injection H as ->. apply IH1 in E as (w & rest & cap' & ? & ? & ?).
      exists w, rest, cap'. simpl. auto.
    + exists [], s, cap. simpl. auto.
  - apply star_greedy_sound in H as (w & rest & ? & ? & ?).
    exists w, rest, cap. simpl. auto.
  - apply star_lazy_sound in H as (w & rest & ? & ? & ?).
    exists w, rest, cap. simpl. auto.
  - destruct s as [|a t]; [discriminate|].
    destruct (p a) eqn:E; [|discriminate].
    apply star_greedy_sound in H as (w & rest & -> & Hw & H).
    exists (a :: w), rest, cap. simpl.
    split; [reflexivity|]. split; [|exact H].
    split; [discriminate|]. split; [constructor; assumption|reflexivity].
  - apply IH1 in H as (w & rest & c0 & -> & Hs & H).
    rewrite take_consumed in H.
    exists w, rest, (Some w). simpl. eauto.
  - destruct s as [|c [|c' t]]; try discriminate.
    + exists [], [], cap. simpl. repeat split; auto.
    + destruct (Ascii.eqb c "010") eqn:E; [|discriminate].
      apply Ascii.eqb_eq in E. subst c.
      exists [], ["010"%char], cap. simpl. repeat split; auto.
  - exists [], s, cap. simpl. auto.
Qed.

End Sound.

(** A match found by [search] lies inside the subject. *)
Lemma match_at_sound r s m :
  match_at r s = Some m ->
  exists rest cap',
    s = group0 m ++ rest /\ sem r (group0 m) rest None cap' /\
    group1 m = cap'.
Proof.
  unfold match_at. intros H.
  apply exec_sound in H as (w & rest & cap' & -> & Hs & H).
  rewrite take_consumed in H. injection H as <-.
  exists rest, cap'. simpl. auto.
Qed.

Lemma search_sound r s m :
  search r s = Some m ->
  exists pre rest cap',
    s = pre ++ group0 m ++ rest /\ sem r (group0 m) rest None cap' /\
    group1 m = cap'.
Proof.
  induction s as [|c t IH]; simpl; intros H.
  - destruct (match_at r []) eqn:E; [|discriminate].
    injection H as ->. apply match_at_sound in E as (rest & cap' & ? & ? & ?).
    exists [], rest, cap'. auto.
  - destruct (match_at r (c :: t)) eqn:E.
    + injection H as ->.
      apply match_at_sound in E as (rest & cap' & ? & ? & ?).
      exists [], rest, cap'. auto.
    + destruct (IH H) as (pre & rest & cap' & -> & ? & ?).
      exists (c :: pre), rest, cap'. auto.
Qed.

(** Conversely, whatever the pattern may consume, the matcher finds a
    match (the first one in its own order, not necessarily this one). *)
Section Complete.
Context {R : Type}.

Lemma star_greedy_complete p w rest cap (k : @cont R) :
  Forall (fun c => p c = true) w -> is_Some (k rest cap) ->
  is_Some (star_greedy p (w ++ rest) cap k).
Proof.
  induction 1 as [|c w Hc Hw IH]; intros Hk; simpl.
  - destruct rest as [|c t]; simpl; [exact Hk|].
    destruct (p c); [|exact Hk].
    destruct (star_greedy p t cap k); [eauto|exact Hk].
  - rewrite Hc. destruct (IH Hk) as [y ->]. eauto.
Qed.

Lemma star_lazy_complete p w rest cap (k : @cont R) :
  Forall (fun c => p c = true) w -> is_Some (k rest cap) ->
  is_Some (star_lazy p (w ++ rest) cap k).
Proof.
  induction 1 as [|c w Hc Hw IH]; intros Hk; simpl.
  - destruct Hk as [y Hk]. destruct rest; simpl; rewrite Hk; eauto.
  - destruct (k (c :: w ++ rest) cap); [eauto|].
    rewrite Hc. auto.
Qed.

Theorem exec_complete r : forall w rest cap cap' (k : @cont R),
  sem r w rest cap cap' -> is_Some (k rest cap') ->
  is_Some (exec r (w ++ rest) cap k).
Proof.
  induction r as [c|p|r1 IH1 r2 IH2|r1 IH1 r2 IH2|r1 IH1|p|p|p|r1 IH1| |];
    intros w rest cap cap' k Hs Hk; simpl in Hs.
  - destruct Hs as [-> ->]. simpl. rewrite Ascii.eqb_refl. exact Hk.
  - destruct Hs as [(c & -> & Hc) ->]. simpl. rewrite Hc. exact Hk.
  - destruct Hs as (w1 & w2 & capm & -> & Hs1 & Hs2).
    simpl. rewrite <- app_assoc.
    eapply IH1; [exact Hs1|]. eapply IH2; eassumption.
  - simpl. destruct Hs as [Hs|Hs].
    + destruct (IH1 _ _ _ _ k Hs Hk) as [y ->]. eauto.
    + destruct (exec r1 (w ++ rest) cap k); [eauto|]. eapply IH2; eassumption.
  - simpl. destruct Hs as [Hs|[-> ->]].
    + destruct (IH1 _ _ _ _ k Hs Hk) as [y ->]. eauto.
    + simpl. destruct (exec r1 rest cap k); [eauto|exact Hk].
  - destruct Hs as [Hw ->]. simpl. apply star_greedy_complete; assumption.
  - destruct Hs as [Hw ->]. simpl. apply star_lazy_complete; assumption.
  - destruct Hs as (Hne & Hw & ->). simpl.
    destruct Hw as [|c w Hc Hw]; [congruence|]. simpl. rewrite Hc.
    apply star_greedy_complete; assumption.
  - destruct Hs as [[c0 Hs] ->]. simpl.
    eapply IH1; [exact Hs|]. simpl. rewrite take_consumed. exact Hk.
  - destruct Hs as (-> & Hrest & ->). simpl.
    destruct Hrest as [-> | ->]; simpl; exact Hk.
  - destruct Hs as [-> ->]. simpl. exact Hk.
Qed.

End Complete.

Lemma match_at_complete r w rest cap' :
  sem r w rest None cap' -> is_Some (match_at r (w ++ rest)).
Proof.
  intros Hs. unfold match_at. eapply exec_complete; [exact Hs|]. eauto.
Qed.

Lemma search_complete r pre w rest cap' :
  sem r w rest None cap' -> is_Some (search r (pre ++ w ++ rest)).
Proof.
  intros Hs. induction pre as [|c pre IH]; simpl.
  - destruct (match_at_complete _ _ _ _ Hs) as [m Hm].
    destruct (w ++ rest); simpl; rewrite Hm; eauto.
  - destruct (match_at r (c :: pre ++ w ++ rest)); [eauto|exact IH].
Qed.

Lemma sem_Lit l w rest cap cap' :
  sem (Lit l) w rest cap cap' <-> w = l /\ cap' = cap.
Proof.
  revert w cap cap'. induction l as [|c l IH]; intros w cap cap'; simpl.
  - tauto.
  - split.
    + intros (w1 & w2 & capm & -> & [-> ->] & H2).
      apply IH in H2 as [-> ->]. auto.
    + intros [-> ->]. exists [c], l, cap. simpl.
      split; [reflexivity|]. split; [auto|]. apply IH. auto.
Qed.

End ReFacts.

(** ** The matcher *)
Module MatcherFacts.
Import Re ReFacts.

(** What [PACKAGE_REGEX] consumes. *)
Lemma package_sem w rest cap' :
  sem PACKAGE_REGEX w rest None cap' <->
  exists h q,
    w = lit "/package/" ++ h ++ lit ".zip" ++ q /\
    cap' = Some h /\ h <> [] /\ Forall (fun c => hex_digit c = true) h /\
    (q = ["?"%char] \/ (q = [] /\ (rest = [] \/ rest = ["010"%char]))).
Proof.
  unfold PACKAGE_REGEX. cbn [sem Seq]. split.
  - intros (w1 & w2 & c1 & -> & H1 & w3 & w4 & c2 & -> & H2 & H3).
    apply sem_Lit in H1 as [-> ->].
    destruct H2 as [[c0 (Hne & Hhex & _)] ->].
    destruct H3 as (w5 & w6 & c3 & -> & H5 & w7 & w8 & c4 & -> & H7 & -> & ->).
    apply sem_Lit in H5 as [-> ->].
    exists w3, w7. rewrite app_nil_r in *.
    split; [reflexivity|]. split.
    + destruct H7 as [[_ ->]|(_ & _ & ->)]; reflexivity.
    + split; [exact Hne|]. split; [exact Hhex|].
      destruct H7 as [[-> _]|(-> & Hr & _)]; auto.
  - intros (h & q & -> & -> & Hne & Hhex & Hq).
    exists (lit "/package/"), (h ++ lit ".zip" ++ q), None.
    split; [reflexivity|]. split; [apply sem_Lit; auto|].
    exists h, (lit ".zip" ++ q), (Some h).
    split; [reflexivity|]. split; [split; [exists None|]; auto|].
    exists (lit ".zip"), q, (Some h).
    split; [reflexivity|]. split; [apply sem_Lit; auto|].
    exists q, [], (Some h). rewrite app_nil_r.
    split; [reflexivity|]. split; [|auto].
    destruct Hq as [->|[-> Hr]]; [left|right]; auto.
Qed.

(** A successful search returns a package-hash segment of the URL. *)
Lemma package_search_some url m :
  search PACKAGE_REGEX url = Some m ->
  exists pre h post, group1 m = Some h /\ package_hash_at url pre h post.
Proof.
  intros H. apply search_sound in H as (pre & rest & cap' & Hurl & Hs & Hg).
  apply package_sem in Hs as (h & q & Hw & -> & Hne & Hhex & Hq).
  exists pre, h, (q ++ rest). split; [exact Hg|].
  split; [|split; [exact Hne|split; [exact Hhex|]]].
  - rewrite Hurl, Hw. rewrite <- !app_assoc. reflexivity.
  - destruct Hq as [->|[-> [->| ->]]]; simpl; eauto.
Qed.

(** A URL with a package-hash segment is found by the search. *)
Lemma package_search_complete url :
  has_package_hash url -> is_Some (search PACKAGE_REGEX url).
Proof.
  intros (pre & h & post & -> & Hne & Hhex & Hpost).
  destruct Hpost as [->|[->|[q ->]]].
  - replace (pre ++ lit "/package/" ++ h ++ lit ".zip" ++ [])
      with (pre ++ (lit "/package/" ++ h ++ lit ".zip" ++ []) ++ [])
      by (rewrite <- !app_assoc; reflexivity).
    eapply search_complete. apply package_sem.
    exists h, []. repeat split; auto.
  - replace (pre ++ lit "/package/" ++ h ++ lit ".zip" ++ ["010"%char])
      with (pre ++ (lit "/package/" ++ h ++ lit ".zip" ++ []) ++ ["010"%char])
      by (rewrite <- !app_assoc; reflexivity).
    eapply search_complete. apply package_sem.
    exists h, []. repeat split; auto.
  - replace (pre ++ lit "/package/" ++ h ++ lit ".zip" ++ "?"%char :: q)
      with (pre ++ (lit "/package/" ++ h ++ lit ".zip" ++ ["?"%char]) ++ q)
      by (rewrite <- !app_assoc; reflexivity).
    eapply search_complete. apply package_sem.
    exists h, ["?"%char]. repeat split; auto.
Qed.

Lemma no_package_hash_of_search url :
  search PACKAGE_REGEX url = None -> ~ has_package_hash url.
Proof.
  intros Hnone Hhas. apply package_search_complete in Hhas as [m Hm].
  congruence.
Qed.


(** The three cases of [friendly_name_from_url]. *)
Lemma friendly_name_cases (url : str) :
  (has_package_hash url /\
   exists pre h post,
     package_hash_at url pre h post /\
     friendly_name_from_url url = lit "ota_" ++ h ++ lit ".zip")
  \/ (~ has_package_hash url /\
      Py.endswith (url_tail url) (lit ".zip") = true /\
      friendly_name_from_url url = url_tail url)
  \/ (~ has_package_hash url /\
      Py.endswith (url_tail url) (lit ".zip") = false /\
      friendly_name_from_url url = lit "update.zip").
Proof.
  unfold friendly_name_from_url.
  destruct (search PACKAGE_REGEX url) as [m|] eqn:Hs.
  - left. destruct (package_search_some _ _ Hs) as (pre & h & post & Hg & Hp).
    split; [exists pre, h, post; exact Hp|].
    exists pre, h, post. rewrite Hg. simpl. auto.
  - right. apply no_package_hash_of_search in Hs. cbv zeta.
    destruct (Py.endswith (url_tail url) (lit ".zip")) eqn:E; [left|right]; auto.
Qed.

(** C10. For every URL, [friendly_name_from_url] returns a name that ends
    in [.zip] and is never [payload.bin].  The name is [ota_<hash>.zip]
    exactly for the URLs with a package-hash segment, [<hash>] being such
    a segment; otherwise it is the final segment, verbatim, when that
    segment ends in [.zip], and [update.zip] in every other case. *)
Theorem friendly_name_always_zip (url : str) :
  Py.endswith (friendly_name_from_url url) (lit ".zip") = true /\
  friendly_name_from_url url <> lit "payload.bin" /\
  ((has_package_hash url /\
    exists pre h post,
      package_hash_at url pre h post /\
      friendly_name_from_url url = lit "ota_" ++ h ++ lit ".zip")
   \/ (~ has_package_hash url /\
       Py.endswith (url_tail url) (lit ".zip") = true /\
       friendly_name_from_url url = url_tail url)
   \/ (~ has_package_hash url /\
       Py.endswith (url_tail url) (lit ".zip") = false /\
       friendly_name_from_url url = lit "update.zip")).
Proof.
  assert (Hzip : Py.endswith (friendly_name_from_url url) (lit ".zip") = true).
  { destruct (friendly_name_cases url)
      as [(_ & pre & h & post & _ & ->)|[(_ & Hz & ->)|(_ & _ & ->)]].
    - rewrite app_assoc. apply PyFacts.endswith_app.
    - exact Hz.
    - reflexivity. }
  split; [exact Hzip|]. split; [|apply friendly_name_cases].
  intros Heq. rewrite Heq in Hzip. discriminate Hzip.
Qed.




(** C5. In a log line where the URL
    [https://android.googleapis.com/packages/ota-api/package/DEADBEEF01.zip?sig=abc]
    is followed by a whitespace character, the matcher finds exactly that
    URL; canonicalization keeps it, query string included, and strips a
    closing bracket or quote that follows it; its file name is
    [ota_DEADBEEF01.zip]. *)
Theorem deadbeef_example (ws : ascii) :
  Py.isspace ws = true ->
  map group1 (finditer URL_REGEX (deadbeef_line [] ws)) = [Some deadbeef_url] /\
  sanitize_url deadbeef_url = deadbeef_url /\
  line_urls (deadbeef_line [] ws) = [deadbeef_url] /\
  line_urls (deadbeef_line ["]"%char] ws) = [deadbeef_url] /\
  line_urls (deadbeef_line ["'"%char] ws) = [deadbeef_url] /\
  line_urls (deadbeef_line ["034"%char] ws) = [deadbeef_url] /\
  friendly_name_from_url deadbeef_url = lit "ota_DEADBEEF01.zip".
Proof.
  intros Hws.
  destruct ws as [[] [] [] [] [] [] [] []];
    try discriminate Hws; vm_compute; repeat split; reflexivity.
Qed.

Lemma deadbeef_example_witness :
  Py.isspace " " = true /\
  line_urls (deadbeef_line [] " ") = [deadbeef_url] /\
  friendly_name_from_url deadbeef_url = lit "ota_DEADBEEF01.zip".
Proof.
  split; [reflexivity|].
  destruct (deadbeef_example " " eq_refl) as (_ & _ & H & _ & _ & _ & Hn).
  split; [exact H|exact Hn].
Defined.

End MatcherFacts.

(** ** The one-shot latch *)
Module LatchFacts.
Import OneShotController OneShot.

Lemma on_new_url_released url c :
  hit_event c = true -> on_new_url url c = c.
Proof. intros H. unfold on_new_url. rewrite H. reflexivity. Qed.

Lemma notify_all_released urls c :
  hit_event c = true -> notify_all urls c = c.
Proof.
  revert c. induction urls as [|u urls IH]; intros c H; simpl.
  - reflexivity.
  - rewrite on_new_url_released by exact H. apply IH, H.
Qed.

(** A wait on a released latch returns at once, whatever the timeout. *)
Lemma wait_begin_released TIMEOUT_MAX timeout c :
  hit_event c = true -> wait_begin TIMEOUT_MAX timeout c = Woken true.
Proof. intros H. unfold wait_begin. rewrite H. reflexivity. Qed.

(** C6. The latch is write-once.  For every sequence of notifications,
    the first one records its canonical URL and releases the latch; the
    later ones change neither the recorded URL nor the flag; and every
    wait from then on returns at once, without a tick of the clock, with
    the recorded URL, whatever its timeout and the largest timeout of
    the platform. *)
Theorem latch_write_once (u0 : str) (later : list str)
    (TIMEOUT_MAX timeout : Z) :
  let first := on_new_url u0 init in
  let final := notify_all (u0 :: later) init in
  first = {| first_url := Some (sanitize_url u0); hit_event := true |} /\
  final = first /\
  (forall u, on_new_url u final = final) /\
  wait_begin TIMEOUT_MAX timeout final = Woken true /\
  result_of final (wait_begin TIMEOUT_MAX timeout final)
    = Some (FirstUrl (Some (sanitize_url u0))).
Proof.
  cbv zeta.
  assert (H1 : on_new_url u0 init
               = {| first_url := Some (sanitize_url u0); hit_event := true |})
    by reflexivity.
  assert (H2 : notify_all (u0 :: later) init = on_new_url u0 init).
  { simpl. apply notify_all_released. rewrite H1. reflexivity. }
  rewrite H2, H1. repeat split.
Qed.

End LatchFacts.

(** ** The parser's loop: deduplication and failures *)
Module ParserFacts.
Import OtaCaptor.

Lemma occurrences_snoc (u v : str) (l : list str) :
  occurrences u (l ++ [v]) = occurrences u l + (if decide (v = u) then 1 else 0).
Proof.
  unfold occurrences. rewrite count_occ_app. simpl.
  destruct (List.list_eq_dec Ascii.ascii_dec v u); destruct (decide (v = u));
    congruence.
Qed.

Lemma for_each_rel {A B C : Type} (R : A -> C -> Prop)
    (f : B -> A -> outcome A) (g : B -> C -> outcome C) (items : list B) :
  (forall x a c, R a c -> orel R (f x a) (g x c)) ->
  forall a c, R a c -> orel R (for_each f items a) (for_each g items c).
Proof.
  intros Hfg. induction items as [|x items IH]; intros a c Hac; simpl.
  - exact Hac.
  - specialize (Hfg x a c Hac).
    destruct (f x a), (g x c); simpl in Hfg; try contradiction; auto.
Qed.

(** A loop whose body never raises and keeps an invariant. *)
Lemma for_each_done {A B : Type} (P : A -> Prop) (Q : list B -> A -> A -> Prop)
    (f : B -> A -> outcome A) :
  (forall a, Q [] a a) ->
  (forall x xs a a' a'', Q [x] a a' -> Q xs a' a'' -> Q (x :: xs) a a'') ->
  (forall x a, P a -> exists a', f x a = Done a' /\ P a' /\ Q [x] a a') ->
  forall items a, P a ->
    exists a', for_each f items a = Done a' /\ P a' /\ Q items a a'.
Proof.
  intros Hnil Hcons Hf. induction items as [|x items IH]; intros a Ha; simpl.
  - exists a. auto.
  - destruct (Hf x a Ha) as (a1 & -> & Ha1 & Hq1).
    destruct (IH a1 Ha1) as (a2 & -> & Ha2 & Hq2).
    exists a2. eauto.
Qed.

Section Parser.
Context {L : Type}.
Variable url_write_fails : str -> bool.
Variable cf : @config L.

(** A URL already in the dedup set: nothing happens. *)
Lemma handle_url_seen u (p : @parser_state L) :
  u ∈ _seen p -> handle_url url_write_fails cf u p = Done p.
Proof. intros H. unfold handle_url. rewrite decide_True by exact H. reflexivity. Qed.

(** A new URL whose line cannot be written: the exception escapes after
    the insertion in the dedup set and before anything else. *)
Lemma handle_url_write_fails u (p : @parser_state L) :
  u ∉ _seen p -> url_write_fails u = true ->
  handle_url url_write_fails cf u p = Raised (set_seen ({[u]} ∪ _seen p) p).
Proof.
  intros Hn Hw. unfold handle_url. rewrite decide_False by exact Hn.
  cbv zeta. rewrite Hw. reflexivity.
Qed.

(** The only exception that escapes [handle_url] comes from the write. *)
Lemma handle_url_raised u (p : @parser_state L) :
  raised (handle_url url_write_fails cf u p) = true ->
  url_write_fails u = true.
Proof.
  unfold handle_url. destruct (decide (u ∈ _seen p)); [discriminate|].
  cbv zeta. destruct (url_write_fails u); [reflexivity|discriminate].
Qed.

Lemma recorded_once_new l0 : recorded_once cf (new_parser l0).
Proof.
  intros u. simpl. rewrite decide_False by set_solver.
  destruct (on_new_url cf), (auto_download cf); auto.
Qed.

(** What a new URL whose line is written leaves behind. *)
Lemma handle_url_new u (p : @parser_state L) :
  u ∉ _seen p -> url_write_fails u = false ->
  exists p',
    handle_url url_write_fails cf u p = Done p' /\
    _seen p' = {[u]} ∪ _seen p /\
    url_file p' = url_file p ++ [u ++ nl] /\
    notified p'
      = match on_new_url cf with
        | Some _ => notified p ++ [u]
        | None => notified p
        end /\
    map fst (downloads p')
      = (if auto_download cf then map fst (downloads p) ++ [u]
         else map fst (downloads p)).
Proof.
  intros Hn Hw. unfold handle_url. rewrite decide_False by exact Hn.
  cbv zeta. rewrite Hw. eexists. split; [reflexivity|].
  destruct (on_new_url cf) as [cb|], (auto_download cf);
    unfold swallow, invoke; simpl;
    try destruct (snd (cb u (listener p))); simpl;
    rewrite ?map_app; auto.
Qed.

(** Handling a URL changes the records of no other URL. *)
Lemma handle_url_other u v (p : @parser_state L) :
  v <> u ->
  let p' := state_of (handle_url url_write_fails cf v p) in
  occurrences (u ++ nl) (url_file p') = occurrences (u ++ nl) (url_file p) /\
  occurrences u (notified p') = occurrences u (notified p) /\
  occurrences u (map fst (downloads p'))
    = occurrences u (map fst (downloads p)).
Proof.
  intros Hne. cbv zeta.
  destruct (decide (v ∈ _seen p)) as [Hin|Hnin].
  - rewrite handle_url_seen by exact Hin. simpl. auto.
  - destruct (url_write_fails v) eqn:Hw.
    + rewrite handle_url_write_fails by assumption. simpl. auto.
    + destruct (handle_url_new v p Hnin Hw) as (p' & -> & _ & Hf & Hn & Hd).
      simpl. rewrite Hf, Hn, Hd. split; [|split].
      * rewrite occurrences_snoc.
        rewrite (decide_False (P := v ++ nl = u ++ nl)); [lia|].
        intros E. apply app_inv_tail in E. contradiction.
      * destruct (on_new_url cf); [|reflexivity].
        rewrite occurrences_snoc, decide_False by exact Hne. lia.
      * destruct (auto_download cf); [|reflexivity].
        rewrite occurrences_snoc, decide_False by exact Hne. lia.
Qed.

(** The URLs of a line up to the first one whose write fails: they are
    handled without an exception, and the failing one is still new when
    its turn comes. *)
Lemma handle_urls_until_failure u before : forall (p : @parser_state L),
  (forall v, In v before -> v ∈ _seen p \/ url_write_fails v = false) ->
  u ∉ _seen p -> url_write_fails u = true ->
  exists p1,
    for_each (handle_url url_write_fails cf) before p = Done p1 /\
    (u ∉ _seen p1) /\
    occurrences (u ++ nl) (url_file p1) = occurrences (u ++ nl) (url_file p) /\
    occurrences u (notified p1) = occurrences u (notified p) /\
    occurrences u (map fst (downloads p1))
      = occurrences u (map fst (downloads p)).
Proof.
  induction before as [|v before IH]; intros p Hok Hnew Hfail; simpl.
  - exists p. auto.
  - assert (Hne : v <> u).
    { intros ->. destruct (Hok u (or_introl eq_refl)) as [H|H];
        [contradiction|congruence]. }
    pose proof (handle_url_other u v p Hne) as Hoth. cbv zeta in Hoth.
    assert (Hstep : exists p',
              handle_url url_write_fails cf v p = Done p' /\
              _seen p' = {[v]} ∪ _seen p).
    { destruct (decide (v ∈ _seen p)) as [Hin|Hnin].
      - exists p. rewrite handle_url_seen by exact Hin.
        split; [reflexivity|]. set_solver.
      - destruct (Hok v (or_introl eq_refl)) as [H|H]; [contradiction|].
        destruct (handle_url_new v p Hnin H) as (p' & Hp' & Hs & _).
        exists p'. auto. }
    destruct Hstep as (p' & Hp' & Hs). rewrite Hp' in *. simpl in Hoth.
    destruct (IH p') as (p1 & Hrun & Hn1 & Hf1 & Hc1 & Hd1).
    + intros w Hw. destruct (Hok w (or_intror Hw)) as [H|H]; [left|right; exact H].
      rewrite Hs. set_solver.
    + rewrite Hs. set_solver.
    + exact Hfail.
    + exists p1. destruct Hoth as (Ho1 & Ho2 & Ho3).
      split; [exact Hrun|]. split; [exact Hn1|].
      split; [congruence|]. split; congruence.
Qed.

Lemma for_each_app_raised {A B : Type} (f : B -> A -> outcome A)
    (before after : list B) (x : B) (a a1 a2 : A) :
  for_each f before a = Done a1 -> f x a1 = Raised a2 ->
  for_each f (before ++ x :: after) a = Raised a2.
Proof.
  revert a. induction before as [|y before IH]; intros a Hb Hx; simpl in *.
  - injection Hb as ->. rewrite Hx. reflexivity.
  - destruct (f y a) as [a'|a']; [|discriminate]. apply IH; assumption.
Qed.

Hypothesis writes_succeed : forall u, url_write_fails u = false.

Lemma handle_url_recorded u (p : @parser_state L) :
  recorded_once cf p ->
  exists p', handle_url url_write_fails cf u p = Done p' /\
             recorded_once cf p' /\ _seen p' = {[u]} ∪ _seen p.
Proof.
  intros Hp. destruct (decide (u ∈ _seen p)) as [Hin|Hnin].
  - exists p. rewrite handle_url_seen by exact Hin.
    split; [reflexivity|]. split; [exact Hp|]. set_solver.
  - destruct (handle_url_new u p Hnin (writes_succeed u))
      as (p' & -> & Hs & Hf & Hn & Hd).
    exists p'. split; [reflexivity|]. split; [|exact Hs].
    intros v. destruct (Hp v) as (Hpf & Hpn & Hpd). cbv zeta in *.
    rewrite Hs, Hf, Hn, Hd.
    assert (Hcount :
      (if decide (v ∈ {[u]} ∪ _seen p) then 1 else 0)
      = (if decide (v ∈ _seen p) then 1 else 0)
        + (if decide (u = v) then 1 else 0)).
    { destruct (decide (u = v)) as [->|Hne].
      - rewrite decide_True by set_solver.
        rewrite decide_False by exact Hnin. reflexivity.
      - destruct (decide (v ∈ _seen p)).
        + rewrite decide_True by set_solver. reflexivity.
        + rewrite decide_False by set_solver. reflexivity. }
    rewrite Hcount. split; [|split].
    + rewrite occurrences_snoc, Hpf.
      destruct (decide (u = v)) as [->|Hne].
      * rewrite (decide_True (P := v ++ nl = v ++ nl)) by reflexivity.
        reflexivity.
      * rewrite (decide_False (P := u ++ nl = v ++ nl)); [reflexivity|].
        intros E. apply app_inv_tail in E. contradiction.
    + destruct (on_new_url cf); [|exact Hpn].
      rewrite occurrences_snoc, Hpn. reflexivity.
    + destruct (auto_download cf); [|exact Hpd].
      rewrite occurrences_snoc, Hpd. reflexivity.
Qed.

(** The scan of a list of URLs. *)
Lemma handle_urls_recorded urls (p : @parser_state L) :
  recorded_once cf p ->
  exists p', for_each (handle_url url_write_fails cf) urls p = Done p' /\
             recorded_once cf p' /\ _seen p' = list_to_set urls ∪ _seen p.
Proof.
  revert p. induction urls as [|u urls IH]; intros p Hp; simpl.
  - exists p. split; [reflexivity|]. split; [exact Hp|]. set_solver.
  - destruct (handle_url_recorded u p Hp) as (p1 & -> & Hp1 & Hs1).
    destruct (IH p1 Hp1) as (p2 & -> & Hp2 & Hs2).
    exists p2. split; [reflexivity|]. split; [exact Hp2|].
    rewrite Hs2, Hs1. set_solver.
Qed.

Lemma scan_lines_recorded lines (p : @parser_state L) :
  recorded_once cf p ->
  exists p', scan_lines url_write_fails cf lines p = Done p' /\
             recorded_once cf p' /\
             _seen p' = list_to_set (concat (map line_urls lines)) ∪ _seen p.
Proof.
  unfold scan_lines, scan_line.
  revert p. induction lines as [|l lines IH]; intros p Hp; simpl.
  - exists p. split; [reflexivity|]. split; [exact Hp|]. set_solver.
  - destruct (handle_urls_recorded (line_urls l) p Hp) as (p1 & -> & Hp1 & Hs1).
    destruct (IH p1 Hp1) as (p2 & -> & Hp2 & Hs2).
    exists p2. split; [reflexivity|]. split; [exact Hp2|].
    rewrite Hs2, Hs1, list_to_set_app_L. set_solver.
Qed.

End Parser.

Section Callback.
Context {L : Type}.
Variable url_write_fails : str -> bool.

Lemma handle_url_calm cf u (p : @parser_state L) :
  handle_url url_write_fails cf u p = handle_url url_write_fails (calm cf) u p.
Proof.
  unfold handle_url, calm. simpl.
  destruct (decide (u ∈ _seen p)); [reflexivity|].
  destruct (url_write_fails u); [reflexivity|].
  destruct (on_new_url cf) as [cb|]; simpl; [|reflexivity].
  unfold swallow, invoke, never_raising. simpl.
  destruct (snd (cb u (listener p))); reflexivity.
Qed.

Lemma handle_url_quiet cf u (p q : @parser_state L) :
  same_session p q ->
  orel same_session (handle_url url_write_fails cf u p)
                    (handle_url url_write_fails (quiet cf) u q).
Proof.
  intros (Hs & Hf & Hd). unfold handle_url, quiet. simpl. rewrite Hs.
  destruct (decide (u ∈ _seen q)); [simpl; unfold same_session; auto|].
  destruct (url_write_fails u); [simpl; unfold same_session; simpl; auto|].
  destruct (on_new_url cf) as [cb|], (auto_download cf);
    unfold swallow, invoke; simpl;
    try destruct (snd (cb u (listener p)));
    unfold same_session; simpl; rewrite ?Hs, ?Hf, ?Hd; auto.
Qed.

Lemma for_each_ext {A B : Type} (f g : B -> A -> outcome A) items a :
  (forall x y, f x y = g x y) -> for_each f items a = for_each g items a.
Proof.
  intros Hfg. revert a. induction items as [|x items IH]; intros a; simpl.
  - reflexivity.
  - rewrite Hfg. destruct (g x a); [apply IH|reflexivity].
Qed.

(** An exception that ends the scan comes from a write to the URL file. *)
Lemma scan_lines_raised cf lines (p : @parser_state L) :
  raised (scan_lines url_write_fails cf lines p) = true ->
  exists u, In u (concat (map line_urls lines)) /\ url_write_fails u = true.
Proof.
  unfold scan_lines, scan_line.
  revert p. induction lines as [|l lines IH]; intros p; simpl; [discriminate|].
  destruct (for_each (handle_url url_write_fails cf) (line_urls l) p)
    as [p1|p1] eqn:E.
  - intros H. destruct (IH _ H) as (u & Hu & Hw).
    exists u. split; [apply in_or_app; right; exact Hu|exact Hw].
  - intros _. clear IH.
    assert (Hex : exists u, In u (line_urls l) /\ url_write_fails u = true).
    { revert p E. induction (line_urls l) as [|v urls IHu]; intros p E;
        simpl in E; [discriminate|].
      destruct (handle_url url_write_fails cf v p) as [p2|p2] eqn:Ev.
      - destruct (IHu _ E) as (u & Hu & Hw). exists u. simpl. auto.
      - exists v. split; [left; reflexivity|].
        apply (handle_url_raised url_write_fails cf v p). rewrite Ev. reflexivity. }
    destruct Hex as (u & Hu & Hw).
    exists u. split; [apply in_or_app; left; exact Hu|exact Hw].
Qed.

(** C7. Whatever the registered callback raises, the parser's loop goes
    on as if it had raised nothing: all of its state is the one obtained
    with the same listener never raising, and the dedup set, the URL file
    and the downloads are those of a session without a listener.  The
    loop is ended by a failing write to the URL file or not at all. *)
Theorem callback_failure_swallowed (cf : @config L) (lines : list str)
    (p : @parser_state L) :
  let out := scan_lines url_write_fails cf lines p in
  out = scan_lines url_write_fails (calm cf) lines p /\
  orel same_session out (scan_lines url_write_fails (quiet cf) lines p) /\
  (raised out = false \/
   exists u, In u (concat (map line_urls lines)) /\ url_write_fails u = true).
Proof.
  cbv zeta. split; [|split].
  - unfold scan_lines, scan_line. apply for_each_ext. intros l q.
    apply for_each_ext. intros u q'. apply handle_url_calm.
  - unfold scan_lines, scan_line.
    apply for_each_rel; [|unfold same_session; auto].
    intros l a c Hac. apply for_each_rel; [|exact Hac].
    intros u a' c' Hac'. apply handle_url_quiet, Hac'.
  - destruct (raised (scan_lines url_write_fails cf lines p)) eqn:E.
    + right. apply (scan_lines_raised cf lines p E).
    + left. reflexivity.
Qed.

End Callback.

End ParserFacts.

(** ** The threads of a session *)
Module SessionFacts.
Import OtaCaptor.

Section Threads.
Context {L : Type}.
Variable url_write_fails : str -> bool.

Lemma run_app sched1 sched2 (c : @t L) :
  run url_write_fails (sched1 ++ sched2) c
  = run url_write_fails sched2 (run url_write_fails sched1 c).
Proof. unfold run. apply fold_left_app. Qed.

(** [init] is the created session after the launch of logcat, and the
    launch happens once. *)
Lemma init_launched (cf : @config L) l0 :
  step url_write_fails Popen (created cf l0) = init cf l0 /\
  step url_write_fails Popen (init cf l0) = init cf l0.
Proof. split; reflexivity. Qed.

(** Whatever the schedule, the raw log and the pending lines together
    hold each line put by [start] once: the threads neither duplicate a
    line nor drop one while it is pending. *)
Lemma step_conserves_lines e (c : @t L) :
  Permutation (log_file c ++ pending c) (fed c) ->
  Permutation (log_file (step url_write_fails e c)
               ++ pending (step url_write_fails e c))
              (fed (step url_write_fails e c)).
Proof.
  destruct c as [cf q st pr lf pl pa ps fd]. unfold pending. simpl.
  intros H. destruct e; simpl.
  - destruct pr as [x|]; [|exact H]. destruct (poll_is_none x); [|exact H].
    simpl. rewrite <- H. solve_Permutation.
  - destruct st; [exact H|]. destruct q as [|line q]; [exact H|].
    simpl. rewrite <- H. solve_Permutation.
  - destruct (st || negb pa); [exact H|].
    destruct pl as [line'|]; [exact H|].
    destruct q as [|line q]; [exact H|].
    simpl. rewrite <- H. solve_Permutation.
  - destruct pl as [line|]; [|exact H].
    destruct (scan_line url_write_fails cf line ps); simpl;
      rewrite <- H; solve_Permutation.
  - destruct st; exact H.
  - exact H.
  - destruct pr; exact H.
Qed.

Lemma run_conserves_lines sched (cf : @config L) l0 :
  let c := run url_write_fails sched (init cf l0) in
  Permutation (log_file c ++ pending c) (fed c).
Proof.
  cbv zeta. induction sched as [|e sched IH] using rev_ind.
  - reflexivity.
  - rewrite run_app. simpl. apply step_conserves_lines, IH.
Qed.

(** C1 fails on the program.  Two lines are read, the parser takes the
    first and puts it back behind the second, and the writer logs them
    in the wrong order.  In the second run the session stops with a line
    still on the queue: the raw log never gets it. *)
Theorem raw_log_reordered (cf : @config L) (l0 : L) :
  let a := lit "A" ++ nl in
  let b := lit "B" ++ nl in
  let c1 := run url_write_fails
              [Feed a; Feed b; ParserGet; ParserScan; WriterStep; WriterStep;
               Stop] (init cf l0) in
  let c2 := run url_write_fails
              [Feed a; Feed b; WriterStep; Stop; WriterStep; ParserGet;
               WriterStep] (init cf l0) in
  (fed c1 = [a; b] /\ log_file c1 = [b; a] /\ _queue c1 = [] /\
   concat (log_file c1) <> concat (fed c1)) /\
  (fed c2 = [a; b] /\ log_file c2 = [a] /\ _stop c2 = true /\
   _queue c2 = [b]).
Proof.
  vm_compute. repeat split. discriminate.
Qed.

(** *** A failing write to the URL file *)

(** Once an exception has ended the parser, no event changes what the
    parser owns. *)
Lemma step_parser_ended e (c : @t L) :
  parser_alive c = false -> parser_line c = None ->
  parser (step url_write_fails e c) = parser c /\
  parser_alive (step url_write_fails e c) = false /\
  parser_line (step url_write_fails e c) = None.
Proof.
  destruct c as [cf q st pr lf pl pa ps fd]. simpl. intros -> ->.
  destruct e; simpl.
  - destruct pr as [x|]; [destruct (poll_is_none x)|]; auto.
  - destruct st; [|destruct q]; auto.
  - rewrite orb_true_r. auto.
  - auto.
  - auto.
  - auto.
  - destruct pr; auto.
Qed.

Lemma run_parser_ended sched (c : @t L) :
  parser_alive c = false -> parser_line c = None ->
  parser (run url_write_fails sched c) = parser c.
Proof.
  revert c. induction sched as [|e sched IH]; intros c Ha Hl; simpl.
  - reflexivity.
  - destruct (step_parser_ended e c Ha Hl) as (Hp & Ha' & Hl').
    rewrite (IH _ Ha' Hl'). exact Hp.
Qed.

(** C4 fails on the program.  The parser scans a line; [u] is the first
    of its URLs that is new and whose write to the URL file fails, the
    URLs before it in the line being already known or written without
    trouble.  The exception of the write escapes the loop and ends the
    parser: [u] has entered the dedup set, but it gets no line in the
    URL file, no call of the callback and no download; the URLs after it
    in the line are not looked at; and no event of any later schedule
    changes the parser's state, so that no later line is scanned. *)
Theorem sink_failure_ends_parser (c : @t L) (line u : str)
    (before after : list str) (sched : list event) :
  parser_line c = Some line ->
  line_urls line = before ++ u :: after ->
  (forall v, In v before ->
     v ∈ _seen (parser c) \/ url_write_fails v = false) ->
  u ∉ _seen (parser c) ->
  url_write_fails u = true ->
  let c' := step url_write_fails ParserScan c in
  let p1 := state_of (for_each (handle_url url_write_fails (cfg c)) before
                        (parser c)) in
  parser c' = set_seen ({[u]} ∪ _seen p1) p1 /\
  u ∈ _seen (parser c') /\
  occurrences (u ++ nl) (url_file (parser c'))
    = occurrences (u ++ nl) (url_file (parser c)) /\
  occurrences u (notified (parser c')) = occurrences u (notified (parser c)) /\
  occurrences u (map fst (downloads (parser c')))
    = occurrences u (map fst (downloads (parser c))) /\
  parser_alive c' = false /\
  parser (run url_write_fails sched c') = parser c'.
Proof.
  intros Hline Hurls Hok Hnew Hfail. cbv zeta.
  destruct (ParserFacts.handle_urls_until_failure url_write_fails (cfg c)
              u before (parser c) Hok Hnew Hfail)
    as (p1 & Hrun & Hn1 & Hf1 & Hc1 & Hd1).
  assert (Hscan : scan_line url_write_fails (cfg c) line (parser c)
                  = Raised (set_seen ({[u]} ∪ _seen p1) p1)).
  { unfold scan_line. rewrite Hurls.
    apply (ParserFacts.for_each_app_raised _ _ _ _ _ p1); [exact Hrun|].
    apply ParserFacts.handle_url_write_fails; assumption. }
  rewrite Hrun. simpl state_of.
  destruct c as [cf q st pr lf pl pa ps fd]. simpl in *. subst pl.
  rewrite Hscan. simpl.
  split; [reflexivity|]. split; [set_solver|].
  split; [exact Hf1|]. split; [exact Hc1|]. split; [exact Hd1|].
  split; [reflexivity|].
  apply run_parser_ended; reflexivity.
Qed.

(** *** Deduplication *)
Section Dedup.
Hypothesis writes_succeed : forall u, url_write_fails u = false.

Lemma step_recorded e (c : @t L) :
  recorded_once (cfg c) (parser c) ->
  recorded_once (cfg (step url_write_fails e c))
                (parser (step url_write_fails e c)).
Proof.
  destruct c as [cf q st pr lf pl pa ps fd]. simpl. intros H.
  destruct e; simpl;
    try (repeat match goal with
                | |- context [match ?x with _ => _ end] => destruct x; simpl
                end; exact H).
  destruct pl as [line|]; [|exact H]. unfold scan_line.
  destruct (ParserFacts.handle_urls_recorded url_write_fails cf writes_succeed
              (line_urls line) ps H) as (p' & -> & Hp' & _).
  exact Hp'.
Qed.

Lemma run_recorded sched (cf : @config L) l0 :
  let c := run url_write_fails sched (init cf l0) in
  cfg c = cf /\ recorded_once cf (parser c).
Proof.
  cbv zeta. induction sched as [|e sched [IHc IHr]] using rev_ind.
  - split; [reflexivity|]. apply ParserFacts.recorded_once_new.
  - rewrite run_app. simpl.
    pose proof (step_recorded e (run url_write_fails sched (init cf l0))) as H.
    rewrite IHc in H. specialize (H IHr).
    assert (Hc : cfg (step url_write_fails e
                        (run url_write_fails sched (init cf l0))) = cf).
    { rewrite <- IHc at 2.
      destruct (run url_write_fails sched (init cf l0))
        as [cf' q st pr lf pl pa ps fd].
      destruct e; simpl;
        repeat match goal with
               | |- context [match ?x with _ => _ end] => destruct x; simpl
               end; reflexivity. }
    rewrite Hc in H. split; [exact Hc|exact H].
Qed.

(** The check-and-insert of the parser's loop.  With a URL file that
    accepts its writes, scan any lines in a new session: a URL that
    these lines produce, however many times, is in the dedup set, has
    exactly one line in the URL file, was notified exactly once to the
    registered listener and downloaded exactly once when downloads are
    automatic; a further check of it reports it present and changes
    nothing.  And under every schedule of the threads, every URL of the
    dedup set has exactly one line, one notification and one download,
    and the other URLs have none.  This counts the lines that the
    parser scans, not the lines that are fed. *)
Lemma dedup_exactly_once (cf : @config L) (lines : list str) (u : str)
    (l0 : L) (sched : list event) :
  In u (concat (map line_urls lines)) ->
  let out := scan_lines url_write_fails cf lines (new_parser l0) in
  let p := state_of out in
  raised out = false /\
  u ∈ _seen p /\
  occurrences (u ++ nl) (url_file p) = 1 /\
  occurrences u (notified p)
    = match on_new_url cf with Some _ => 1 | None => 0 end /\
  occurrences u (map fst (downloads p))
    = (if auto_download cf then 1 else 0) /\
  handle_url url_write_fails cf u p = Done p /\
  recorded_once cf (parser (run url_write_fails sched (init cf l0))).
Proof.
  intros Hin.
  destruct (ParserFacts.scan_lines_recorded url_write_fails cf writes_succeed
              lines (new_parser l0) (ParserFacts.recorded_once_new cf l0))
    as (p & Hout & Hrec & Hseen).
  cbv zeta. rewrite Hout. simpl.
  assert (Hu : u ∈ _seen p).
  { rewrite Hseen. apply elem_of_union_l, elem_of_list_to_set.
    apply list_elem_of_In. exact Hin. }
  destruct (Hrec u) as (Hf & Hn & Hd). cbv zeta in *.
  rewrite decide_True in Hf, Hn, Hd by exact Hu.
  split; [reflexivity|]. split; [exact Hu|]. split; [exact Hf|].
  split; [exact Hn|]. split; [exact Hd|].
  split; [apply ParserFacts.handle_url_seen, Hu|].
  apply run_recorded.
Qed.

End Dedup.

(** C2 fails on the program.  Two lines carrying the same URL are read
    and put on the queue that the writer and the parser share.  The
    writer takes both before the parser does: both reach the raw log,
    the queue is empty when the parser looks, and the parser's state is
    the one of a new session.  The URL fed twice has no line in the URL
    file, no notification and no download, not exactly one of each,
    whatever the configuration and whether writes fail or not. *)
Theorem duplicate_url_lost_to_writer (cf : @config L) (l0 : L) :
  let line := deadbeef_line [] " " in
  let c := run url_write_fails
             [Feed line; Feed line; WriterStep; WriterStep;
              ParserGet; ParserScan; ParserGet; ParserScan; Stop]
             (init cf l0) in
  line_urls line = [deadbeef_url] /\
  fed c = [line; line] /\ log_file c = [line; line] /\ _queue c = [] /\
  parser c = new_parser l0 /\
  occurrences (deadbeef_url ++ nl) (url_file (parser c)) = 0 /\
  occurrences deadbeef_url (notified (parser c)) = 0 /\
  occurrences deadbeef_url (map fst (downloads (parser c))) = 0.
Proof.
  cbv zeta. split; [vm_compute; reflexivity|].
  repeat split.
Qed.

(** *** [stop] *)

Lemma stop_stop (c : @t L) : stop (stop c) = stop c.
Proof.
  destruct c as [cf q st pr lf pl pa ps fd].
  destruct st, pr as [[]|]; reflexivity.
Qed.

Lemma stop_inv_step (c0 : @t L) b (s : stop_pc * stop_pc * @t L) :
  stop_inv c0 s -> stop_inv c0 (stop_step b s).
Proof.
  destruct s as [[pc1 pc2] c]. destruct c0 as [cf q st pr lf pl pa ps fd].
  intros (st' & pr' & -> & Hst & Hpr & Hpc). simpl in *.
  pose proof (Hpc pc1 (or_introl eq_refl)) as [H1a H1b].
  pose proof (Hpc pc2 (or_intror eq_refl)) as [H2a H2b].
  clear Hpc.
  destruct b, pc1, pc2, st, st', pr as [[]|];
    simpl in *;
    destruct Hst as [Hst|Hst]; try discriminate Hst;
    destruct Hpr as [Hpr|Hpr]; subst pr';
    simpl;
    try (specialize (H1a eq_refl)); try (specialize (H2a eq_refl));
    try (specialize (H1b eq_refl)); try (specialize (H2b eq_refl));
    try discriminate; try (destruct H1b; discriminate);
    try (destruct H2b; discriminate);
    (eexists _, _; split; [reflexivity|];
     split; [auto|]; split; [simpl; auto|];
     intros pc [->| ->]; split; intros E; try discriminate E; auto).
Qed.

Lemma stop_inv_run (c0 : @t L) sched :
  stop_inv c0 (stop_run sched (AtTest, AtTest, c0)).
Proof.
  induction sched as [|b sched IH] using rev_ind.
  - destruct c0 as [cf q st pr lf pl pa ps fd]. simpl.
    exists st, pr. split; [reflexivity|]. split; [auto|]. split; [auto|].
    intros pc [->| ->]; split; discriminate.
  - unfold stop_run. rewrite fold_left_app. simpl.
    apply stop_inv_step. exact IH.
Qed.

Lemma stop_inv_returned (c0 : @t L) pc1 pc2 c :
  stop_inv c0 (pc1, pc2, c) -> pc1 = Returned \/ pc2 = Returned ->
  c = stop c0.
Proof.
  intros (st' & pr' & -> & _ & _ & Hpc) Hret.
  assert (H : st' = true /\ pr' = proc (stop c0)).
  { destruct Hret as [->| ->].
    - apply (Hpc Returned (or_introl eq_refl)). reflexivity.
    - apply (Hpc Returned (or_intror eq_refl)). reflexivity. }
  destruct H as [-> ->].
  destruct c0 as [cf q st pr lf pl pa ps fd]. simpl. destruct st; reflexivity.
Qed.

(** C9. [stop] is idempotent.  A second call changes nothing, as an
    event of the session too; a call leaves the flag set; and when two
    callers run [stop] step by step in any interleaving, the session is
    in the state one call leaves as soon as one of them has returned, and
    stays there. *)
Theorem stop_idempotent (c : @t L) (sched : list bool) :
  stop (stop c) = stop c /\
  step url_write_fails Stop (step url_write_fails Stop c)
    = step url_write_fails Stop c /\
  _stop (stop c) = true /\
  stop_run [true; true; true; true] (AtTest, AtTest, c)
    = (Returned, AtTest, stop c) /\
  match stop_run sched (AtTest, AtTest, c) with
  | (Returned, _, c') | (_, Returned, c') => c' = stop c
  | _ => True
  end.
Proof.
  split; [apply stop_stop|].
  split; [destruct c as [cf q [] [[]|] lf pl pa ps fd]; reflexivity|].
  split; [destruct c as [cf q [] pr lf pl pa ps fd]; reflexivity|].
  split; [destruct c as [cf q [] [[]|] lf pl pa ps fd]; reflexivity|].
  pose proof (stop_inv_run c sched) as Hinv.
  destruct (stop_run sched (AtTest, AtTest, c)) as [[pc1 pc2] c'].
  destruct pc1, pc2; try exact I;
    apply (stop_inv_returned _ _ _ _ Hinv); auto.
Qed.

End Threads.

Lemma dedup_exactly_once_witness :
  let cf := {| auto_download := true;
               on_new_url := Some (fun u (l : list str) => (l ++ [u], true)) |} in
  let lines := [deadbeef_line [] " "; lit "noise"; deadbeef_line ["'"%char] " "] in
  let p := state_of (scan_lines (fun _ => false) cf lines (new_parser [])) in
  (forall u : str, (fun _ : str => false) u = false) /\
  In deadbeef_url (concat (map line_urls lines)) /\
  occurrences (deadbeef_url ++ nl) (url_file p) = 1 /\
  occurrences deadbeef_url (notified p) = 1 /\
  occurrences deadbeef_url (map fst (downloads p)) = 1.
Proof.
  cbv zeta.
  assert (Hin : In deadbeef_url
                  (concat (map line_urls
                     [deadbeef_line [] " "; lit "noise";
                      deadbeef_line ["'"%char] " "]))).
  { vm_compute. left. reflexivity. }
  split; [reflexivity|]. split; [exact Hin|].
  destruct (dedup_exactly_once (fun _ => false) (fun _ => eq_refl)
              {| auto_download := true;
                 on_new_url := Some (fun u (l : list str) => (l ++ [u], true)) |}
              [deadbeef_line [] " "; lit "noise"; deadbeef_line ["'"%char] " "]
              deadbeef_url [] [] Hin)
    as (_ & _ & Hf & Hn & Hd & _).
  split; [exact Hf|]. split; [exact Hn|exact Hd].
Defined.

Lemma sink_failure_ends_parser_witness :
  let fails := fun u : str => Py.endswith u (lit "payload.bin") in
  let second := lit "https://example.com/ota/payload.bin" in
  let c := run fails [Feed two_url_line; ParserGet] (init logging_config []) in
  let c' := step fails ParserScan c in
  parser_line c = Some two_url_line /\
  line_urls two_url_line = [deadbeef_url] ++ second :: [] /\
  (forall v, In v [deadbeef_url] ->
     v ∈ _seen (parser c) \/ fails v = false) /\
  (second ∉ _seen (parser c)) /\
  fails second = true /\
  notified (parser c') = [deadbeef_url] /\
  occurrences second (notified (parser c')) = 0 /\
  parser_alive c' = false /\
  parser (run fails [Feed payload_line; ParserGet; ParserScan] c')
    = parser c'.
Proof.
  cbv zeta.
  set (fails := fun u : str => Py.endswith u (lit "payload.bin")).
  set (second := lit "https://example.com/ota/payload.bin").
  set (c := run fails [Feed two_url_line; ParserGet] (init logging_config [])).
  assert (H1 : parser_line c = Some two_url_line) by reflexivity.
  assert (H2 : line_urls two_url_line = [deadbeef_url] ++ second :: [])
    by (vm_compute; reflexivity).
  assert (H3 : forall v, In v [deadbeef_url] ->
                 v ∈ _seen (parser c) \/ fails v = false).
  { intros v [<-|[]]. right. vm_compute. reflexivity. }
  assert (H4 : second ∉ _seen (parser c)) by apply not_elem_of_empty.
  assert (H5 : fails second = true) by (vm_compute; reflexivity).
  split; [exact H1|]. split; [exact H2|]. split; [exact H3|].
  split; [exact H4|]. split; [exact H5|].
  destruct (sink_failure_ends_parser fails c two_url_line second
              [deadbeef_url] []
              [Feed payload_line; ParserGet; ParserScan] H1 H2 H3 H4 H5)
    as (_ & _ & _ & Hn & _ & Ha & Hrun).
  split; [vm_compute; reflexivity|].
  split; [rewrite Hn; reflexivity|]. split; [exact Ha|exact Hrun].
Defined.

(** A run in which the write of the first URL fails: the listener is
    never called, neither for that URL nor for the URL of the next line,
    which the parser does not scan any more, although both lines reach
    the raw log. *)
Lemma sink_failure_loses_callback :
  let c := run (fun _ => true)
             [Feed (deadbeef_line [] " "); ParserGet; ParserScan;
              Feed payload_line; ParserGet; ParserScan;
              WriterStep; WriterStep] (init logging_config []) in
  line_urls (deadbeef_line [] " ") = [deadbeef_url] /\
  line_urls payload_line = [lit "https://example.com/ota/payload.bin"] /\
  log_file c = [deadbeef_line [] " "; payload_line] /\
  elements (_seen (parser c)) = [deadbeef_url] /\
  url_file (parser c) = [] /\
  notified (parser c) = [] /\
  listener (parser c) = [] /\
  parser_alive c = false.
Proof.
  vm_compute. repeat split.
Qed.

End SessionFacts.

(** ** The one-shot workflow *)
Module OneShotFacts.
Import OtaCaptor OneShot.

Lemma for_each_state_preserves {A B : Type} (P : A -> Prop)
    (f : B -> A -> outcome A) :
  (forall x a, P a -> P (state_of (f x a))) ->
  forall items a, P a -> P (state_of (for_each f items a)).
Proof.
  intros Hf. induction items as [|x items IH]; intros a Ha; simpl.
  - exact Ha.
  - specialize (Hf x a Ha). destruct (f x a) as [a'|a']; simpl in *.
    + apply IH, Hf.
    + exact Hf.
Qed.

Section System.
Variable url_write_fails : str -> bool.

Lemma step_cfg e (c : @OtaCaptor.t OneShotController.t) : cfg (step url_write_fails e c) = cfg c.
Proof.
  destruct c as [cf q st pr lf pl pa ps fd]. destruct e; simpl;
    repeat match goal with
           | |- context [match ?x with _ => _ end] => destruct x; simpl
           end; reflexivity.
Qed.

Lemma run_cfg sched (c : @OtaCaptor.t OneShotController.t) : cfg (run url_write_fails sched c) = cfg c.
Proof.
  revert c. induction sched as [|e sched IH]; intros c; simpl.
  - reflexivity.
  - rewrite IH. apply step_cfg.
Qed.

(** The latch is never taken back. *)
Lemma handle_url_released u (p : @parser_state OneShotController.t) :
  OneShotController.hit_event (listener p) = true ->
  OneShotController.hit_event
    (listener (state_of (handle_url url_write_fails oneshot_config u p)))
  = true.
Proof.
  intros H. unfold handle_url.
  destruct (decide (u ∈ _seen p)); [exact H|].
  cbv zeta. destruct (url_write_fails u); [exact H|].
  simpl. rewrite LatchFacts.on_new_url_released by exact H. exact H.
Qed.

Lemma step_released e (c : @OtaCaptor.t OneShotController.t) :
  cfg c = oneshot_config ->
  OneShotController.hit_event (controller_of c) = true ->
  OneShotController.hit_event (controller_of (step url_write_fails e c)) = true.
Proof.
  unfold controller_of.
  destruct c as [cf q st pr lf pl pa ps fd]. simpl. intros -> H.
  destruct e; simpl;
    try (repeat match goal with
                | |- context [match ?x with _ => _ end] => destruct x; simpl
                end; exact H).
  destruct pl as [line|]; [|exact H].
  pose proof (for_each_state_preserves
                (fun p => OneShotController.hit_event (listener p) = true)
                (handle_url url_write_fails oneshot_config)
                handle_url_released (line_urls line) ps H) as Hscan.
  unfold scan_line.
  destruct (for_each (handle_url url_write_fails oneshot_config)
              (line_urls line) ps); exact Hscan.
Qed.

Lemma sys_step_fst e (c : @OtaCaptor.t OneShotController.t) w :
  fst (sys_step url_write_fails e (c, w))
  = match e with Sess e' => step url_write_fails e' c | Tick => c end.
Proof. destruct e; reflexivity. Qed.

Lemma sys_run_released sched (c : @OtaCaptor.t OneShotController.t) w :
  cfg c = oneshot_config ->
  OneShotController.hit_event (controller_of c) = true ->
  OneShotController.hit_event
    (controller_of (fst (sys_run url_write_fails sched (c, w)))) = true.
Proof.
  revert c w. induction sched as [|e sched IH]; intros c w Hcfg H; simpl.
  - exact H.
  - destruct e as [e'|]; simpl.
    + apply IH; [rewrite step_cfg; exact Hcfg|apply step_released; assumption].
    + apply IH; assumption.
Qed.

Lemma wait_poll_unreleased c n :
  OneShotController.hit_event c = false ->
  wait_poll c (Waiting n) = unreleased n.
Proof. intros H. unfold wait_poll. rewrite H. destruct n; reflexivity. Qed.

Lemma wait_poll_keeps_unreleased c n :
  OneShotController.hit_event c = false ->
  wait_poll c (unreleased n) = unreleased n.
Proof.
  intros H. destruct n; [reflexivity|].
  apply (wait_poll_unreleased c (S n) H).
Qed.

(** While the latch is not released the caller only counts seconds. *)
Lemma sys_run_unreleased sched :
  forall (c : @OtaCaptor.t OneShotController.t) n,
  cfg c = oneshot_config ->
  OneShotController.hit_event
    (controller_of (fst (sys_run url_write_fails sched (c, unreleased n))))
  = false ->
  snd (sys_run url_write_fails sched (c, unreleased n))
  = unreleased (n - ticks sched).
Proof.
  induction sched as [|e sched IH]; intros c n Hcfg Hfinal; simpl in *.
  - rewrite Nat.sub_0_r. reflexivity.
  - destruct e as [e'|].
    + assert (Hnow : OneShotController.hit_event
                       (controller_of (step url_write_fails e' c)) = false).
      { destruct (OneShotController.hit_event
                    (controller_of (step url_write_fails e' c))) eqn:E;
          [|reflexivity].
        rewrite sys_run_released in Hfinal;
          [discriminate|rewrite step_cfg; exact Hcfg|exact E]. }
      rewrite (wait_poll_keeps_unreleased _ _ Hnow) in *.
      apply IH; [rewrite step_cfg; exact Hcfg|exact Hfinal].
    + assert (Hnow : OneShotController.hit_event (controller_of c) = false).
      { destruct (OneShotController.hit_event (controller_of c)) eqn:E;
          [|reflexivity].
        rewrite sys_run_released in Hfinal; [discriminate|exact Hcfg|exact E]. }
      destruct n as [|n]; simpl in *.
      * apply (IH c 0 Hcfg Hfinal).
      * rewrite Hnow in *. apply (IH c n Hcfg Hfinal).
Qed.

(** A wait that has raised stays so. *)
Lemma sys_run_overflowed sched (c : @OtaCaptor.t OneShotController.t) :
  snd (sys_run url_write_fails sched (c, Overflowed)) = Overflowed.
Proof.
  revert c. induction sched as [|e sched IH]; intros c; simpl.
  - reflexivity.
  - destruct e as [e'|]; simpl; apply IH.
Qed.

Section Wait.
Variable TIMEOUT_MAX : Z.

(** C8, as the program has it.  [cmd_oneshot] waits with a positive
    timeout.  When that timeout is one that the locks of the platform
    accept, at most [threading.TIMEOUT_MAX], and no URL is notified,
    then whatever the threads of the session do before and during the
    wait, the launch of logcat and a stop of the session included, the
    wait has returned with the time-out outcome once that many seconds
    have passed. *)
Theorem wait_times_out (arg_timeout : Z) (before : list event)
    (during : list sys_event) :
  let s := cmd_oneshot TIMEOUT_MAX url_write_fails arg_timeout before during in
  (effective_timeout arg_timeout <= TIMEOUT_MAX)%Z ->
  OneShotController.hit_event (controller_of (fst s)) = false ->
  Z.to_nat (effective_timeout arg_timeout) <= ticks during ->
  (0 < effective_timeout arg_timeout)%Z /\
  snd s = Woken false /\
  result_of (controller_of (fst s)) (snd s) = Some TimedOut.
Proof.
  cbv zeta. unfold cmd_oneshot. intros Hmax Hfinal Hticks.
  set (cap := run url_write_fails before
                (created oneshot_config OneShotController.init)) in *.
  assert (Hcfg : cfg cap = oneshot_config) by apply run_cfg.
  assert (Hstart : OneShotController.hit_event (controller_of cap) = false).
  { destruct (OneShotController.hit_event (controller_of cap)) eqn:E;
      [|reflexivity].
    rewrite sys_run_released in Hfinal; [discriminate|exact Hcfg|exact E]. }
  unfold wait_begin in *. rewrite Hstart in *.
  replace (TIMEOUT_MAX <? effective_timeout arg_timeout)%Z with false in *
    by (symmetry; apply Z.ltb_ge; exact Hmax).
  rewrite (wait_poll_unreleased _ _ Hstart) in *.
  rewrite (sys_run_unreleased _ _ _ Hcfg Hfinal).
  replace (Z.to_nat (effective_timeout arg_timeout) - ticks during)
    with 0 by lia.
  split; [|split; reflexivity].
  unfold effective_timeout. destruct (0 <? arg_timeout)%Z eqn:E; lia.
Qed.

End Wait.
End System.

Lemma wait_times_out_witness :
  let s := cmd_oneshot 9223372036 (fun _ => false) 2
             [Popen; Feed (lit "boot"); Stop]
             [Sess ParserGet; Tick; Sess WriterStep; Tick] in
  (effective_timeout 2 <= 9223372036)%Z /\
  OneShotController.hit_event (controller_of (fst s)) = false /\
  _stop (fst s) = true /\
  snd s = Woken false.
Proof.
  split; [vm_compute; discriminate|].
  split; [reflexivity|]. split; [reflexivity|].
  apply (wait_times_out (fun _ => false) 9223372036 2
           [Popen; Feed (lit "boot"); Stop]
           [Sess ParserGet; Tick; Sess WriterStep; Tick]).
  - vm_compute. discriminate.
  - vm_compute. reflexivity.
  - vm_compute. lia.
Defined.

(** C8 as stated fails.  On Linux [threading.TIMEOUT_MAX] is 9223372036
    seconds.  With [--timeout 10000000000] and no URL in the log, the
    wait raises [OverflowError] instead of timing out, and however long
    the session goes on it never returns the time-out outcome. *)
Lemma wait_overflows :
  let TIMEOUT_MAX := 9223372036%Z in
  let timeout := 10000000000%Z in
  let before := [Popen; Feed (lit "boot")] in
  effective_timeout timeout = timeout /\
  forall during : list sys_event,
    let s := cmd_oneshot TIMEOUT_MAX (fun _ => false) timeout before during in
    snd s = Overflowed /\
    result_of (controller_of (fst s)) (snd s) = Some WaitRaised /\
    result_of (controller_of (fst s)) (snd s) <> Some TimedOut.
Proof.
  cbv zeta. split; [reflexivity|]. intros during.
  assert (H : snd (cmd_oneshot 9223372036 (fun _ => false) 10000000000
                     [Popen; Feed (lit "boot")] during) = Overflowed).
  { unfold cmd_oneshot.
    replace (wait_begin 9223372036 (effective_timeout 10000000000)
               (controller_of
                  (run (fun _ => false) [Popen; Feed (lit "boot")]
                     (created oneshot_config OneShotController.init))))
      with Overflowed by reflexivity.
    apply sys_run_overflowed. }
  rewrite H. simpl. split; [reflexivity|]. split; [reflexivity|discriminate].
Qed.

End OneShotFacts.

(** ** More on Python strings: [strip] *)
Module StripFacts.
Import Py.

Lemma lstrip_by_split p s :
  exists l, s = l ++ lstrip_by p s /\ Forall (fun c => p c = true) l.
Proof.
  induction s as [|c t (l & Hl & Hp)]; simpl.
  - exists []. auto.
  - destruct (p c) eqn:E.
    + exists (c :: l). split; [simpl; congruence|constructor; assumption].
    + exists []. auto.
Qed.

Lemma lstrip_by_head p s c t : lstrip_by p s = c :: t -> p c = false.
Proof.
  induction s as [|a s IH]; simpl; [discriminate|].
  destruct (p a) eqn:E; [exact IH|]. intros [= <- _]. exact E.
Qed.

Lemma lstrip_by_keeps p c t : p c = false -> lstrip_by p (c :: t) = c :: t.
Proof. intros H. simpl. rewrite H. reflexivity. Qed.

Lemma rstrip_by_snoc p s c :
  rstrip_by p (s ++ [c]) = if p c then rstrip_by p s else s ++ [c].
Proof.
  unfold rstrip_by. rewrite rev_app_distr. simpl.
  destruct (p c); [reflexivity|].
  simpl. rewrite rev_involutive. reflexivity.
Qed.

Lemma rstrip_by_nil p : rstrip_by p [] = [].
Proof. reflexivity. Qed.

Lemma rstrip_by_split p s :
  exists r, s = rstrip_by p s ++ r /\ Forall (fun c => p c = true) r.
Proof.
  induction s as [|c s (r & Hr & Hp)] using rev_ind.
  - exists []. auto.
  - rewrite rstrip_by_snoc. destruct (p c) eqn:E.
    + exists (r ++ [c]). split.
      * rewrite app_assoc, <- Hr. reflexivity.
      * apply Forall_app. split; [exact Hp|]. constructor; [exact E|constructor].
    + exists []. rewrite app_nil_r. auto.
Qed.

Lemma rstrip_by_last p s t c : rstrip_by p s = t ++ [c] -> p c = false.
Proof.
  induction s as [|a s IH] using rev_ind.
  - rewrite rstrip_by_nil. destruct t; discriminate.
  - rewrite rstrip_by_snoc. destruct (p a) eqn:E; [exact IH|].
    intros H. apply app_inj_tail in H as [_ <-]. exact E.
Qed.

(** What [strip] removes and what it leaves. *)
Lemma strip_by_split p s :
  exists l r,
    s = l ++ strip_by p s ++ r /\
    Forall (fun c => p c = true) l /\ Forall (fun c => p c = true) r.
Proof.
  unfold strip_by.
  destruct (lstrip_by_split p s) as (l & Hl & Hpl).
  destruct (rstrip_by_split p (lstrip_by p s)) as (r & Hr & Hpr).
  exists l, r. split; [|auto]. rewrite <- Hr. exact Hl.
Qed.

Lemma strip_by_head p s c t : strip_by p s = c :: t -> p c = false.
Proof.
  unfold strip_by. intros H.
  destruct (rstrip_by_split p (lstrip_by p s)) as (r & Hr & _).
  rewrite H in Hr. simpl in Hr. apply (lstrip_by_head p s c _ Hr).
Qed.

Lemma strip_by_last p s t c : strip_by p s = t ++ [c] -> p c = false.
Proof. unfold strip_by. apply rstrip_by_last. Qed.

(** A string whose two ends are kept is left alone. *)
Lemma rstrip_by_keeps p s c : p c = false -> rstrip_by p (s ++ [c]) = s ++ [c].
Proof. intros H. rewrite rstrip_by_snoc, H. reflexivity. Qed.

Lemma strip_by_fixed p s :
  (forall c t, s = c :: t -> p c = false) ->
  (forall t c, s = t ++ [c] -> p c = false) ->
  strip_by p s = s.
Proof.
  intros Hh Hl. unfold strip_by.
  assert (H1 : lstrip_by p s = s).
  { destruct s as [|c t]; [reflexivity|].
    apply lstrip_by_keeps, (Hh c t eq_refl). }
  rewrite H1. clear H1 Hh. destruct s as [|c s' _] using rev_ind; [reflexivity|].
  apply rstrip_by_keeps, (Hl s' c eq_refl).
Qed.

Lemma strip_by_idempotent p s : strip_by p (strip_by p s) = strip_by p s.
Proof.
  apply strip_by_fixed.
  - intros c t H. apply (strip_by_head p s c t H).
  - intros t c H. apply (strip_by_last p s t c H).
Qed.

Lemma strip_by_none p s :
  Forall (fun c => p c = false) s -> strip_by p s = s.
Proof.
  intros H. apply strip_by_fixed.
  - intros c t ->. inversion H; assumption.
  - intros t c ->. apply Forall_app in H as [_ H]. inversion H; assumption.
Qed.

(** Stripping keeps what holds of every character. *)
Lemma strip_by_Forall (P : ascii -> Prop) p s :
  Forall P s -> Forall P (strip_by p s).
Proof.
  intros H. destruct (strip_by_split p s) as (l & r & Hs & _).
  rewrite Hs in H. apply Forall_app in H as [_ H].
  apply Forall_app in H as [H _]. exact H.
Qed.

End StripFacts.

(** ** The shape of the URLs that the matcher reports *)
Module UrlFacts.
Import Re ReFacts StripFacts.

Lemma all_chars_sem (P : ascii -> Prop) r :
  all_chars P r ->
  forall w rest cap cap', sem r w rest cap cap' -> Forall P w.
Proof.
  induction r as [c|p|r1 IH1 r2 IH2|r1 IH1 r2 IH2|r1 IH1|p|p|p|r1 IH1| |];
    simpl; intros Hall w rest cap cap' Hs.
  - destruct Hs as [-> _]. constructor; [exact Hall|constructor].
  - destruct Hs as [(c & -> & Hc) _]. constructor; [auto|constructor].
  - destruct Hall as [H1 H2].
    destruct Hs as (w1 & w2 & capm & -> & Hs1 & Hs2).
    apply Forall_app. split; [eapply IH1|eapply IH2]; eassumption.
  - destruct Hall as [H1 H2]. destruct Hs as [Hs|Hs]; [eapply IH1|eapply IH2];
      eassumption.
  - destruct Hs as [Hs|[-> _]]; [eapply IH1; eassumption|constructor].
  - destruct Hs as [Hw _]. eapply Forall_impl; [exact Hw|]. auto.
  - destruct Hs as [Hw _]. eapply Forall_impl; [exact Hw|]. auto.
  - destruct Hs as (_ & Hw & _). eapply Forall_impl; [exact Hw|]. auto.
  - destruct Hs as [[c0 Hs] _]. eapply IH1; eassumption.
  - destruct Hs as (-> & _). constructor.
  - destruct Hs as (-> & _). constructor.
Qed.

Lemma all_chars_Lit (P : ascii -> Prop) l : Forall P l -> all_chars P (Lit l).
Proof. induction 1; simpl; auto. Qed.

Lemma hex_digit_url_char c : hex_digit c = true -> url_char c = true.
Proof.
  destruct c as [[] [] [] [] [] [] [] []]; vm_compute; congruence.
Qed.

Lemma hex_digit_not_slash c : hex_digit c = true -> c <> "/"%char.
Proof. intros H ->. discriminate H. Qed.

Lemma hex_digit_not_dot c : hex_digit c = true -> c <> "."%char.
Proof. intros H ->. discriminate H. Qed.

Lemma Forall_lit (P : ascii -> bool) (s : string) :
  forallb P (lit s) = true -> Forall (fun c => P c = true) (lit s).
Proof.
  intros H. apply List.Forall_forall. intros x Hx.
  exact (proj1 (forallb_forall P (lit s)) H x Hx).
Qed.

Lemma url_regex_chars : all_chars (fun c => url_char c = true) URL_REGEX.
Proof.
  unfold URL_REGEX. cbn [all_chars Seq].
  repeat split;
    try (apply all_chars_Lit, Forall_lit; reflexivity);
    try reflexivity; auto using hex_digit_url_char.
Qed.

Lemma url_sem w rest cap cap' :
  sem URL_REGEX w rest cap cap' ->
  cap' = Some w /\ (exists t, w = lit "http" ++ t) /\
  Forall (fun c => url_char c = true) w.
Proof.
  intros Hs. split; [|split].
  - unfold URL_REGEX in Hs. cbn [sem] in Hs. apply Hs.
  - unfold URL_REGEX in Hs. cbn [sem Seq] in Hs.
    destruct Hs as [[c0 (w1 & w2 & capm & -> & H1 & _)] _].
    apply sem_Lit in H1 as [-> _]. eauto.
  - apply (all_chars_sem _ _ url_regex_chars _ _ _ _ Hs).
Qed.

(** Every match of [finditer] is a part of the subject that the pattern
    can consume. *)
Lemma finditer_from_sound r : forall s k m,
  In m (finditer_from r k s) ->
  exists pre rest,
    s = pre ++ group0 m ++ rest /\ sem r (group0 m) rest None (group1 m).
Proof.
  induction s as [|c t IH]; intros k m Hin.
  - destruct k; simpl in Hin; [|contradiction].
    destruct (match_at r []) as [m0|] eqn:E; [|contradiction].
    destruct Hin as [<-|[]].
    apply match_at_sound in E as (rest & cap' & Hs & Hsem & <-).
    exists [], rest. auto.
  - destruct k as [|k]; simpl in Hin.
    + destruct (match_at r (c :: t)) as [m0|] eqn:E.
      * destruct Hin as [<-|Hin].
        -- apply match_at_sound in E as (rest & cap' & Hs & Hsem & <-).
           exists [], rest. auto.
        -- destruct (IH _ _ Hin) as (pre & rest & -> & Hsem).
           exists (c :: pre), rest. auto.
      * destruct (IH _ _ Hin) as (pre & rest & -> & Hsem).
        exists (c :: pre), rest. auto.
    + destruct (IH _ _ Hin) as (pre & rest & -> & Hsem).
      exists (c :: pre), rest. auto.
Qed.

Lemma url_char_not_space c : url_char c = true -> Py.isspace c = false.
Proof.
  unfold url_char. intros H. apply negb_true_iff, orb_false_iff in H. apply H.
Qed.

Lemma url_char_not_bracket c : url_char c = true -> c <> "]"%char.
Proof. intros H ->. discriminate H. Qed.

(** [sanitize_url] on a raw match: only closing quotes at its end go. *)
Lemma sanitize_match w :
  (exists t, w = lit "http" ++ t) ->
  Forall (fun c => url_char c = true) w ->
  sanitize_url w = Py.rstrip_by closing_char w.
Proof.
  intros [t ->] Hw. unfold sanitize_url, Py.strip.
  rewrite strip_by_none
    by (eapply Forall_impl; [exact Hw|]; apply url_char_not_space).
  unfold Py.strip_chars, Py.strip_by.
  change (lit "http" ++ t) with ("h"%char :: lit "ttp" ++ t).
  rewrite lstrip_by_keeps by reflexivity. reflexivity.
Qed.

(** A kept character shields what precedes it from [rstrip]. *)
Lemma rstrip_by_app p a x b :
  p x = false ->
  Py.rstrip_by p (a ++ x :: b) = a ++ x :: Py.rstrip_by p b.
Proof.
  intros Hx. induction b as [|c b IH] using rev_ind.
  - rewrite rstrip_by_nil. apply rstrip_by_keeps, Hx.
  - change (a ++ x :: b ++ [c]) with (a ++ (x :: b) ++ [c]).
    rewrite app_assoc, !rstrip_by_snoc. destruct (p c).
    + exact IH.
    + rewrite <- app_assoc. reflexivity.
Qed.

(** The canonical URL of a raw match. *)
Lemma canonical_of_match w :
  (exists t, w = lit "http" ++ t) ->
  Forall (fun c => url_char c = true) w ->
  let u := sanitize_url w in
  (exists r, w = u ++ r) /\
  (exists t, u = lit "http" ++ t) /\
  Forall (fun c => url_char c = true) u /\
  (forall t c, u = t ++ [c] -> closing_char c = false) /\
  sanitize_url u = u.
Proof.
  intros Hhttp Hw. cbv zeta.
  pose proof (sanitize_match w Hhttp Hw) as Hsan.
  assert (Hpre : exists r, w = sanitize_url w ++ r).
  { rewrite Hsan. destruct (rstrip_by_split closing_char w) as (r & Hr & _).
    eauto. }
  assert (Hh : exists t, sanitize_url w = lit "http" ++ t).
  { rewrite Hsan. destruct Hhttp as [t ->].
    change (lit "http" ++ t) with (lit "htt" ++ "p"%char :: t).
    rewrite rstrip_by_app by reflexivity. eexists. reflexivity. }
  assert (Hu : Forall (fun c => url_char c = true) (sanitize_url w)).
  { destruct Hpre as [r Hr]. rewrite Hr in Hw at 1.
    apply Forall_app in Hw as [Hw _]. exact Hw. }
  assert (Hlast : forall t c, sanitize_url w = t ++ [c] -> closing_char c = false).
  { intros t c H. rewrite Hsan in H. apply (rstrip_by_last _ _ _ _ H). }
  split; [exact Hpre|]. split; [exact Hh|]. split; [exact Hu|].
  split; [exact Hlast|].
  rewrite (sanitize_match _ Hh Hu).
  destruct (sanitize_url w) as [|c s] using rev_ind; [reflexivity|].
  apply rstrip_by_keeps, (Hlast s c eq_refl).
Qed.

(** Where the URLs of a line come from. *)
Lemma line_urls_match line u :
  In u (line_urls line) ->
  exists w pre rest,
    u = sanitize_url w /\ line = pre ++ w ++ rest /\
    (exists t, w = lit "http" ++ t) /\
    Forall (fun c => url_char c = true) w.
Proof.
  unfold line_urls, finditer. intros Hin.
  apply in_map_iff in Hin as (m & <- & Hm).
  apply finditer_from_sound in Hm as (pre & rest & Hline & Hsem).
  apply url_sem in Hsem as (Hcap & Hhttp & Hchars).
  rewrite Hcap. simpl. exists (group0 m), pre, rest. auto.
Qed.

Lemma line_urls_canonical line u :
  In u (line_urls line) ->
  infix_of u line /\
  (exists t, u = lit "http" ++ t) /\
  Forall (fun c => url_char c = true) u /\
  (forall t c, u = t ++ [c] -> closing_char c = false) /\
  sanitize_url u = u.
Proof.
  intros Hin.
  destruct (line_urls_match _ _ Hin) as (w & pre & rest & -> & -> & Hh & Hw).
  destruct (canonical_of_match w Hh Hw) as ([r Hr] & H2 & H3 & H4 & H5).
  split; [|auto].
  exists pre, (r ++ rest). rewrite Hr at 1. rewrite <- !app_assoc. reflexivity.
Qed.

End UrlFacts.

(** ** What the matcher reports and what the names look like *)
Module MatcherExtras.
Import Re ReFacts StripFacts UrlFacts.

(** X1. Every URL that the parser's loop gets from a line occurs in the
    line as it is, begins with [http], contains neither whitespace nor a
    closing bracket, does not end in a bracket or a quote, and is left
    unchanged by another [sanitize_url]. *)
Theorem line_urls_shape (line u : str) :
  In u (line_urls line) ->
  infix_of u line /\
  Py.startswith u (lit "http") = true /\
  Forall (fun c => Py.isspace c = false /\ c <> "]"%char) u /\
  (forall t c, u = t ++ [c] -> closing_char c = false) /\
  sanitize_url u = u.
Proof.
  intros Hin.
  destruct (line_urls_canonical _ _ Hin) as (H1 & [t H2] & H3 & H4 & H5).
  split; [exact H1|]. split; [rewrite H2; apply PyFacts.startswith_app|].
  split; [|auto].
  eapply Forall_impl; [exact H3|]. intros c Hc.
  split; [apply url_char_not_space, Hc|apply url_char_not_bracket, Hc].
Qed.

Lemma line_urls_shape_witness :
  In deadbeef_url (line_urls (deadbeef_line ["'"%char] " ")) /\
  infix_of deadbeef_url (deadbeef_line ["'"%char] " ") /\
  sanitize_url deadbeef_url = deadbeef_url.
Proof.
  assert (Hin : In deadbeef_url (line_urls (deadbeef_line ["'"%char] " ")))
    by (vm_compute; left; reflexivity).
  split; [exact Hin|].
  destruct (line_urls_shape _ _ Hin) as (H1 & _ & _ & _ & H5).
  split; [exact H1|exact H5].
Defined.

(** X2. For every string, [sanitize_url] returns a part of its argument
    that neither begins nor ends with a closing bracket, a single quote
    or a double quote. *)
Theorem sanitize_url_strips (u : str) :
  infix_of (sanitize_url u) u /\
  (forall c t, sanitize_url u = c :: t -> closing_char c = false) /\
  (forall t c, sanitize_url u = t ++ [c] -> closing_char c = false).
Proof.
  unfold sanitize_url, Py.strip_chars, Py.strip. split; [|split].
  - destruct (strip_by_split Py.isspace u) as (l1 & r1 & H1 & _).
    destruct (strip_by_split closing_char (Py.strip_by Py.isspace u))
      as (l2 & r2 & H2 & _).
    exists (l1 ++ l2), (r2 ++ r1).
    rewrite H1 at 1. rewrite H2 at 1. rewrite <- !app_assoc. reflexivity.
  - intros c t H. apply (strip_by_head _ _ _ _ H).
  - intros t c H. apply (strip_by_last _ _ _ _ H).
Qed.

(** X3. On a string without whitespace, [sanitize_url] is idempotent:
    sanitizing again, as [on_new_url] and [download_with_progress] do,
    changes nothing. *)
Theorem sanitize_url_idempotent (u : str) :
  Forall (fun c => Py.isspace c = false) u ->
  sanitize_url (sanitize_url u) = sanitize_url u.
Proof.
  intros Hu. unfold sanitize_url, Py.strip, Py.strip_chars.
  rewrite (strip_by_none Py.isspace u Hu).
  rewrite (strip_by_none Py.isspace (Py.strip_by _ u))
    by (apply strip_by_Forall; exact Hu).
  apply strip_by_idempotent.
Qed.

Lemma sanitize_url_idempotent_witness :
  let u := lit "'https://example.com/ota/payload.zip']" in
  Forall (fun c => Py.isspace c = false) u /\
  sanitize_url u = lit "https://example.com/ota/payload.zip" /\
  sanitize_url (sanitize_url u) = sanitize_url u.
Proof.
  cbv zeta.
  assert (H : Forall (fun c => Py.isspace c = false)
                (lit "'https://example.com/ota/payload.zip']")).
  { eapply Forall_impl;
      [apply (Forall_lit (fun c => negb (Py.isspace c))); reflexivity|].
    intros c Hc. apply negb_true_iff, Hc. }
  split; [exact H|]. split; [vm_compute; reflexivity|].
  apply (sanitize_url_idempotent _ H).
Defined.

Lemma split_no_sep sep s :
  Forall (Forall (fun c => c <> sep)) (Py.split sep s).
Proof.
  induction s as [|c t IH]; simpl.
  - repeat constructor.
  - destruct (Ascii.eqb c sep) eqn:E.
    + constructor; [constructor|exact IH].
    + apply Ascii.eqb_neq in E.
      destruct (Py.split sep t) as [|seg segs].
      * repeat constructor. exact E.
      * inversion IH; subst. constructor; [constructor; assumption|assumption].
Qed.

Lemma last_Forall {A : Type} (P : A -> Prop) (l : list A) d :
  Forall P l -> P d -> P (List.last l d).
Proof.
  intros Hl Hd. induction Hl as [|x l Hx Hl IH]; [exact Hd|].
  simpl. destruct l; [exact Hx|exact IH].
Qed.

Lemma url_tail_no_slash url : Forall (fun c => c <> "/"%char) (url_tail url).
Proof.
  unfold url_tail, Py.last_item.
  set (segs := Py.split "/" (Py.rstrip_chars ["/"%char] url)).
  assert (H : Forall (fun c => c <> "/"%char) (List.last segs [])).
  { apply last_Forall; [apply split_no_sep|constructor]. }
  destruct (List.last segs []); simpl; [|exact H].
  eapply Forall_impl;
    [apply (Forall_lit (fun c => negb (Ascii.eqb c "/"))); reflexivity|].
  intros c Hc. apply negb_true_iff, Ascii.eqb_neq in Hc. exact Hc.
Qed.

(** X4. The name that [friendly_name_from_url] gives to a download is
    never empty and never contains a slash, whatever the URL.  Nothing
    more is filtered: a backslash of the query string can reach the
    name, as in the URL of [backslash_line], which the matcher reports
    and whose name begins with two parent directories in Windows
    notation. *)
Theorem friendly_name_is_file_name (url : str) :
  friendly_name_from_url url <> [] /\
  Forall (fun c => c <> "/"%char) (friendly_name_from_url url) /\
  line_urls backslash_line = [backslash_url] /\
  friendly_name_from_url backslash_url = lit "..\..\evil.zip".
Proof.
  assert (Hgen : friendly_name_from_url url <> [] /\
                 Forall (fun c => c <> "/"%char) (friendly_name_from_url url)).
  { destruct (MatcherFacts.friendly_name_cases url)
      as [(_ & pre & h & post & (_ & _ & Hhex & _) & ->)
         |[(_ & Hz & ->)|(_ & _ & ->)]].
    - split; [discriminate|].
      apply Forall_app. split; [repeat constructor; discriminate|].
      apply Forall_app. split; [|repeat constructor; discriminate].
      eapply Forall_impl; [exact Hhex|]. apply hex_digit_not_slash.
    - split; [|apply url_tail_no_slash].
      intros E. rewrite E in Hz. discriminate Hz.
    - split; [discriminate|]. repeat constructor; discriminate. }
  destruct Hgen as [H1 H2]. split; [exact H1|]. split; [exact H2|].
  split; vm_compute; reflexivity.
Qed.

End MatcherExtras.

(** ** The hash in the name of a download *)
Module HashFacts.
Import Re ReFacts UrlFacts.

(** Two runs of hexadecimal digits, each followed by a dot, that begin
    at the same place are the same run. *)
Lemma hex_run_unique : forall h h' x y,
  Forall (fun c => hex_digit c = true) h ->
  Forall (fun c => hex_digit c = true) h' ->
  h ++ "."%char :: x = h' ++ "."%char :: y -> h = h'.
Proof.
  induction h as [|c h IH]; intros h' x y Hh Hh' E.
  - destruct h' as [|c' h']; [reflexivity|].
    simpl in E. injection E as <- _. inversion Hh'; subst. discriminate.
  - destruct h' as [|c' h'].
    + simpl in E. injection E as -> _. inversion Hh; subst. discriminate.
    + simpl in E. injection E as <- E.
      inversion Hh; inversion Hh'; subst.
      f_equal. eapply IH; eassumption.
Qed.

(** No match of [PACKAGE_REGEX] where the subject does not begin with
    [/package/]. *)
Lemma no_match_without_prefix s :
  Py.startswith s (lit "/package/") = false ->
  match_at PACKAGE_REGEX s = None.
Proof.
  intros H. destruct (match_at PACKAGE_REGEX s) as [m|] eqn:E; [|reflexivity].
  apply match_at_sound in E as (rest & cap' & Hs & Hsem & _).
  apply MatcherFacts.package_sem in Hsem as (h & q & Hw & _).
  rewrite Hs, Hw in H. rewrite <- app_assoc in H.
  rewrite PyFacts.startswith_app in H. discriminate H.
Qed.

(** The match at a package-hash segment captures its hash. *)
Lemma match_at_package h post :
  h <> [] -> Forall (fun c => hex_digit c = true) h ->
  (post = [] \/ post = ["010"%char] \/ exists q, post = "?"%char :: q) ->
  exists m,
    match_at PACKAGE_REGEX (lit "/package/" ++ h ++ lit ".zip" ++ post)
      = Some m /\ group1 m = Some h.
Proof.
  intros Hne Hhex Hpost.
  assert (Hsome : is_Some (match_at PACKAGE_REGEX
                    (lit "/package/" ++ h ++ lit ".zip" ++ post))).
  { destruct Hpost as [->|[->|[q ->]]].
    - replace (lit "/package/" ++ h ++ lit ".zip" ++ [])
        with ((lit "/package/" ++ h ++ lit ".zip" ++ []) ++ [])
        by (rewrite <- !app_assoc; reflexivity).
      eapply match_at_complete. apply MatcherFacts.package_sem.
      exists h, []. repeat split; auto.
    - replace (lit "/package/" ++ h ++ lit ".zip" ++ ["010"%char])
        with ((lit "/package/" ++ h ++ lit ".zip" ++ []) ++ ["010"%char])
        by (rewrite <- !app_assoc; reflexivity).
      eapply match_at_complete. apply MatcherFacts.package_sem.
      exists h, []. repeat split; auto.
    - replace (lit "/package/" ++ h ++ lit ".zip" ++ "?"%char :: q)
        with ((lit "/package/" ++ h ++ lit ".zip" ++ ["?"%char]) ++ q)
        by (rewrite <- !app_assoc; reflexivity).
      eapply match_at_complete. apply MatcherFacts.package_sem.
      exists h, ["?"%char]. repeat split; auto. }
  destruct Hsome as [m Hm]. exists m. split; [exact Hm|].
  apply match_at_sound in Hm as (rest & cap' & Hs & Hsem & ->).
  apply MatcherFacts.package_sem in Hsem as (h' & q & Hw & -> & _ & Hhex' & _).
  f_equal. rewrite Hw in Hs. rewrite <- !app_assoc in Hs.
  apply app_inv_head in Hs.
  symmetry. eapply (hex_run_unique h h'); [exact Hhex|exact Hhex'|exact Hs].
Qed.

Lemma search_unfold r s :
  search r s
  = match match_at r s with
    | Some m => Some m
    | None => match s with _ :: t => search r t | [] => None end
    end.
Proof. destruct s; reflexivity. Qed.

Lemma search_skips_prefix : forall pre s,
  (forall j, j < length pre ->
     Py.startswith (drop j (pre ++ s)) (lit "/package/") = false) ->
  is_Some (match_at PACKAGE_REGEX s) ->
  search PACKAGE_REGEX (pre ++ s) = match_at PACKAGE_REGEX s.
Proof.
  induction pre as [|c pre IH]; intros s Hfirst [m Hm].
  - simpl. rewrite search_unfold, Hm. reflexivity.
  - rewrite search_unfold.
    rewrite (no_match_without_prefix ((c :: pre) ++ s))
      by (apply (Hfirst 0); simpl; lia).
    simpl. apply IH; [|eauto].
    intros j Hj. apply (Hfirst (S j)). simpl. lia.
Qed.

(** X5. When the first [/package/] of a URL begins a package-hash
    segment, the download is named after the hash of that segment. *)
Theorem friendly_name_of_package_url (pre h post : str) :
  let url := pre ++ lit "/package/" ++ h ++ lit ".zip" ++ post in
  h <> [] ->
  Forall (fun c => hex_digit c = true) h ->
  (post = [] \/ post = ["010"%char] \/ exists q, post = "?"%char :: q) ->
  (forall j, j < length pre ->
     Py.startswith (drop j url) (lit "/package/") = false) ->
  friendly_name_from_url url = lit "ota_" ++ h ++ lit ".zip".
Proof.
  cbv zeta. intros Hne Hhex Hpost Hfirst.
  destruct (match_at_package h post Hne Hhex Hpost) as (m & Hm & Hg).
  unfold friendly_name_from_url.
  rewrite (search_skips_prefix pre _ Hfirst) by eauto.
  rewrite Hm, Hg. reflexivity.
Qed.

Lemma friendly_name_of_package_url_witness :
  friendly_name_from_url
    (lit "https://dl.google.com/packages/ota-api/package/0a1B2c.zip?x=/package/ff.zip")
  = lit "ota_0a1B2c.zip".
Proof.
  apply (friendly_name_of_package_url
           (lit "https://dl.google.com/packages/ota-api")
           (lit "0a1B2c") (lit "?x=/package/ff.zip")).
  - discriminate.
  - apply (Forall_lit hex_digit). reflexivity.
  - right. right. eexists. reflexivity.
  - intros j Hj.
    do 38 (destruct j as [|j]; [reflexivity|]).
    exfalso. vm_compute in Hj. lia.
Defined.

End HashFacts.

(** ** The URL file lists the new URLs in the order of their discovery *)
Module OrderFacts.
Import OtaCaptor.

Lemma distinct_from_app seen a b :
  distinct_from seen (a ++ b)
  = distinct_from seen a ++ distinct_from (list_to_set a ∪ seen) b.
Proof.
  revert seen. induction a as [|u a IH]; intros seen; simpl.
  - f_equal. set_solver.
  - destruct (decide (u ∈ seen)) as [Hin|Hnin].
    + rewrite IH. f_equal. f_equal. set_solver.
    + simpl. rewrite IH. f_equal. f_equal. f_equal. set_solver.
Qed.

Lemma distinct_from_In seen urls u :
  In u (distinct_from seen urls) <-> In u urls /\ u ∉ seen.
Proof.
  revert seen. induction urls as [|v urls IH]; intros seen; simpl.
  - tauto.
  - destruct (decide (v ∈ seen)) as [Hin|Hnin].
    + rewrite IH. split.
      * intros [H1 H2]. auto.
      * intros [[->|H1] H2]; [contradiction|auto].
    + simpl. rewrite IH. split.
      * intros [->|[H1 H2]]; [auto|]. split; [auto|set_solver].
      * intros [[->|H1] H2]; [auto|].
        destruct (decide (v = u)) as [->|Hne]; [auto|].
        right. split; [exact H1|set_solver].
Qed.

Lemma distinct_from_NoDup seen urls : List.NoDup (distinct_from seen urls).
Proof.
  revert seen. induction urls as [|v urls IH]; intros seen; simpl.
  - constructor.
  - destruct (decide (v ∈ seen)); [apply IH|].
    constructor; [|apply IH].
    intros H. apply distinct_from_In in H as [_ H]. set_solver.
Qed.

Section Order.
Context {L : Type}.
Variable url_write_fails : str -> bool.
Variable cf : @config L.
Hypothesis writes_succeed : forall u, url_write_fails u = false.

Lemma added_nil p : added cf [] p p.
Proof.
  unfold added. simpl. rewrite !app_nil_r.
  destruct (on_new_url cf), (auto_download cf);
    rewrite ?app_nil_r; repeat split; set_solver.
Qed.

Lemma added_app a b p1 p2 p3 :
  added cf a p1 p2 -> added cf b p2 p3 -> added cf (a ++ b) p1 p3.
Proof.
  unfold added. intros (Hs1 & Hf1 & Hn1 & Hd1) (Hs2 & Hf2 & Hn2 & Hd2).
  cbv zeta in *. rewrite distinct_from_app, <- Hs1.
  split; [rewrite Hs2, Hs1, list_to_set_app_L; set_solver|].
  split; [rewrite Hf2, Hf1, map_app, app_assoc; reflexivity|].
  split.
  - rewrite Hn2, Hn1. destruct (on_new_url cf);
      rewrite <- ?app_assoc, ?app_nil_r; reflexivity.
  - rewrite Hd2, Hd1. destruct (auto_download cf);
      rewrite ?map_app, <- ?app_assoc, ?app_nil_r; reflexivity.
Qed.

Lemma handle_url_added u (p : @parser_state L) :
  exists p', handle_url url_write_fails cf u p = Done p' /\ added cf [u] p p'.
Proof.
  unfold handle_url, added. simpl.
  destruct (decide (u ∈ _seen p)) as [Hin|Hnin].
  - exists p. split; [reflexivity|]. simpl. rewrite !app_nil_r.
    destruct (on_new_url cf), (auto_download cf);
      rewrite ?app_nil_r; repeat split; set_solver.
  - rewrite writes_succeed. eexists. split; [reflexivity|].
    destruct (on_new_url cf) as [cb|], (auto_download cf);
      unfold swallow, invoke; simpl;
      try destruct (snd (cb u (listener p))); simpl;
      rewrite ?app_nil_r; repeat split; set_solver.
Qed.

Lemma handle_urls_added urls : forall (p : @parser_state L),
  exists p', for_each (handle_url url_write_fails cf) urls p = Done p' /\
             added cf urls p p'.
Proof.
  induction urls as [|u urls IH]; intros p; simpl.
  - exists p. split; [reflexivity|apply added_nil].
  - destruct (handle_url_added u p) as (p1 & -> & H1).
    destruct (IH p1) as (p2 & -> & H2).
    exists p2. split; [reflexivity|]. apply (added_app [u] urls _ _ _ H1 H2).
Qed.

Lemma scan_lines_added lines : forall (p : @parser_state L),
  exists p', scan_lines url_write_fails cf lines p = Done p' /\
             added cf (concat (map line_urls lines)) p p'.
Proof.
  unfold scan_lines, scan_line.
  induction lines as [|l lines IH]; intros p; simpl.
  - exists p. split; [reflexivity|apply added_nil].
  - destruct (handle_urls_added (line_urls l) p) as (p1 & -> & H1).
    destruct (IH p1) as (p2 & -> & H2).
    exists p2. split; [reflexivity|]. apply (added_app _ _ _ _ _ H1 H2).
Qed.

(** X6. With a URL file that accepts its writes, the parser's loop
    leaves, for any lines scanned in a new session, one line in the URL
    file per distinct URL, in the order in which the URLs first appear;
    the listener is notified of the same URLs in the same order, and
    automatic downloads are started for them in that order, each under
    the name [friendly_name_from_url] gives it. *)
Theorem url_file_in_order (lines : list str) (l0 : L) :
  let urls := concat (map line_urls lines) in
  let D := distinct_from ∅ urls in
  let p := state_of (scan_lines url_write_fails cf lines (new_parser l0)) in
  List.NoDup D /\
  (forall u, In u D <-> In u urls) /\
  url_file p = map (fun u => u ++ nl) D /\
  notified p = match on_new_url cf with Some _ => D | None => [] end /\
  downloads p
    = (if auto_download cf
       then map (fun u => (u, friendly_name_from_url u)) D else []).
Proof.
  cbv zeta.
  destruct (scan_lines_added lines (new_parser l0))
    as (p & -> & _ & Hf & Hn & Hd).
  simpl in *.
  split; [apply distinct_from_NoDup|].
  split; [|auto].
  intros u. rewrite distinct_from_In. split; [tauto|]. split; [auto|set_solver].
Qed.

End Order.

Lemma url_file_in_order_witness :
  let cf := {| auto_download := false;
               on_new_url := Some (fun u (l : list str) => (u :: l, false)) |} in
  let lines := [payload_line; deadbeef_line [] " "; payload_line] in
  (forall u : str, (fun _ : str => false) u = false) /\
  url_file (state_of (scan_lines (fun _ => false) cf lines (new_parser [])))
  = [lit "https://example.com/ota/payload.bin" ++ nl; deadbeef_url ++ nl].
Proof.
  cbv zeta. split; [reflexivity|].
  destruct (url_file_in_order (fun _ => false)
              {| auto_download := false;
                 on_new_url := Some (fun u (l : list str) => (u :: l, false)) |}
              (fun _ => eq_refl)
              [payload_line; deadbeef_line [] " "; payload_line] [])
    as (_ & _ & -> & _).
  vm_compute. reflexivity.
Defined.

End OrderFacts.

(** ** The one-shot controller and its session *)
Module OneShotExtras.
Import OtaCaptor OneShot OneShotFacts.

Lemma for_each_state_preserves_in {A B : Type} (P : A -> Prop)
    (f : B -> A -> outcome A) (items : list B) :
  (forall x a, In x items -> P a -> P (state_of (f x a))) ->
  forall a, P a -> P (state_of (for_each f items a)).
Proof.
  induction items as [|x items IH]; intros Hf a Ha; simpl.
  - exact Ha.
  - pose proof (Hf x a (or_introl eq_refl) Ha) as Hx.
    destruct (f x a) as [a'|a']; simpl in *.
    + apply IH; [|exact Hx]. intros y b Hy. apply Hf. right. exact Hy.
    + exact Hx.
Qed.

Lemma notify_all_snoc urls u c :
  OneShotController.notify_all (urls ++ [u]) c
  = OneShotController.on_new_url u (OneShotController.notify_all urls c).
Proof. unfold OneShotController.notify_all. rewrite fold_left_app. reflexivity. Qed.

Section System.
Variable url_write_fails : str -> bool.

Lemma handle_url_in_step u (p : @parser_state OneShotController.t) :
  sanitize_url u = u -> in_step p ->
  in_step (state_of (handle_url url_write_fails oneshot_config u p)).
Proof.
  intros Hu (Hl & Hf & Hn). unfold handle_url.
  destruct (decide (u ∈ _seen p)); [split; auto|].
  cbv zeta. destruct (url_write_fails u); [split; auto|].
  unfold in_step. simpl.
  rewrite notify_all_snoc, <- Hl, Hf, map_app.
  split; [reflexivity|]. split; [reflexivity|].
  apply Forall_app. split; [exact Hn|]. constructor; [exact Hu|constructor].
Qed.

Lemma step_in_step e (c : @OtaCaptor.t OneShotController.t) :
  cfg c = oneshot_config -> in_step (parser c) ->
  in_step (parser (step url_write_fails e c)).
Proof.
  destruct c as [cf q st pr lf pl pa ps fd]. simpl. intros -> H.
  destruct e; simpl;
    try (repeat match goal with
                | |- context [match ?x with _ => _ end] => destruct x; simpl
                end; exact H).
  destruct pl as [line|]; [|exact H].
  pose proof (for_each_state_preserves_in in_step
                (handle_url url_write_fails oneshot_config) (line_urls line))
    as Hscan.
  unfold scan_line.
  destruct (for_each (handle_url url_write_fails oneshot_config)
              (line_urls line) ps) eqn:E; simpl;
    (specialize (Hscan
       (fun u a Hu => handle_url_in_step u a
          (proj2 (proj2 (proj2 (proj2
             (UrlFacts.line_urls_canonical line u Hu)))))) ps H);
     rewrite E in Hscan; exact Hscan).
Qed.

Lemma run_in_step_from sched (c0 : @OtaCaptor.t OneShotController.t) :
  cfg c0 = oneshot_config -> in_step (parser c0) ->
  in_step (parser (run url_write_fails sched c0)).
Proof.
  intros Hcfg H0. induction sched as [|e sched IH] using rev_ind.
  - exact H0.
  - rewrite SessionFacts.run_app. simpl.
    apply step_in_step; [rewrite run_cfg; exact Hcfg|exact IH].
Qed.

Lemma run_in_step sched :
  let c := run url_write_fails sched
             (init oneshot_config OneShotController.init) in
  in_step (parser c).
Proof.
  cbv zeta. apply run_in_step_from; [reflexivity|].
  split; [reflexivity|]. split; [reflexivity|constructor].
Qed.

Lemma sys_run_parser sched (c : @OtaCaptor.t OneShotController.t) w :
  exists sched',
    fst (sys_run url_write_fails sched (c, w))
    = run url_write_fails sched' c.
Proof.
  revert c w. induction sched as [|e sched IH]; intros c w; simpl.
  - exists []. reflexivity.
  - destruct e as [e'|]; simpl.
    + destruct (IH (step url_write_fails e' c)
                  (wait_poll (controller_of (step url_write_fails e' c)) w))
        as [sched' ->].
      exists (e' :: sched'). reflexivity.
    + apply IH.
Qed.

Lemma in_step_latch (p : @parser_state OneShotController.t) :
  in_step p ->
  OneShotController.first_url (listener p) = head (notified p) /\
  OneShotController.hit_event (listener p)
  = match notified p with [] => false | _ :: _ => true end.
Proof.
  intros (Hl & _ & Hn). rewrite Hl.
  destruct (notified p) as [|u rest]; [split; reflexivity|].
  inversion Hn as [|? ? Hu _]; subst.
  simpl. rewrite LatchFacts.notify_all_released by reflexivity.
  simpl. rewrite Hu. split; reflexivity.
Qed.

(** X7. In the session of [cmd_oneshot], under every schedule of the
    threads and whether writes to the URL file fail or not: the URL file
    has one line per notification, in order; the latch is released
    exactly when a URL has been notified; and the URL that the
    controller holds is the first one notified, the first line of the
    URL file. *)
Theorem controller_holds_first_url (sched : list event) :
  let c := run url_write_fails sched
             (init oneshot_config OneShotController.init) in
  let p := parser c in
  url_file p = map (fun u => u ++ nl) (notified p) /\
  OneShotController.first_url (controller_of c) = head (notified p) /\
  OneShotController.hit_event (controller_of c)
  = match notified p with [] => false | _ :: _ => true end.
Proof.
  cbv zeta. pose proof (run_in_step sched) as H. cbv zeta in H.
  destruct (in_step_latch _ H) as [H1 H2].
  split; [apply H|]. split; [exact H1|exact H2].
Qed.

Lemma sys_step_inv over t0 t e s :
  wait_inv over t0 t s ->
  wait_inv over t0 (match e with Tick => S t | Sess _ => t end)
    (sys_step url_write_fails e s).
Proof.
  destruct s as [c w]. unfold wait_inv, controller_of. simpl.
  intros [Hcfg Hw].
  destruct e as [e'|]; simpl; unfold controller_of.
  - split; [rewrite step_cfg; exact Hcfg|].
    destruct w as [n|[]|]; simpl.
    + destruct Hw as (Hhit & Hn & Hpos).
      destruct (OneShotController.hit_event
                  (listener (parser (step url_write_fails e' c)))) eqn:E;
        [reflexivity|].
      destruct n; [lia|]. auto.
    + apply (step_released url_write_fails e' c Hcfg Hw).
    + exact Hw.
    + exact Hw.
  - split; [exact Hcfg|].
    destruct w as [n|[]|]; simpl.
    + destruct Hw as (Hhit & Hn & Hpos). rewrite Hhit.
      destruct n as [|[|n]]; simpl; [lia|lia|].
      split; [reflexivity|lia].
    + exact Hw.
    + lia.
    + exact Hw.
Qed.

Lemma sys_run_inv over t0 sched : forall t s,
  wait_inv over t0 t s ->
  wait_inv over t0 (t + ticks sched) (sys_run url_write_fails sched s).
Proof.
  induction sched as [|e sched IH]; intros t s H; simpl.
  - rewrite Nat.add_0_r. exact H.
  - pose proof (sys_step_inv over t0 t e s H) as Hstep.
    destruct e as [e'|].
    + apply IH. exact Hstep.
    + replace (t + S (ticks sched)) with (S t + ticks sched) by lia.
      apply IH. exact Hstep.
Qed.

(** X8. Whatever the threads do, the wait of [cmd_oneshot] is truthful:
    when it has returned with the flag set, the latch is released and
    holds a URL; when it has returned without, the whole timeout has
    passed; while it is blocked the latch is not released and the
    seconds left and the seconds passed add up to the timeout; and it
    raises only for a timeout above the largest one of the platform. *)
Theorem wait_is_truthful (TIMEOUT_MAX arg_timeout : Z) (before : list event)
    (during : list sys_event) :
  let s := cmd_oneshot TIMEOUT_MAX url_write_fails arg_timeout before during in
  let t0 := Z.to_nat (effective_timeout arg_timeout) in
  match snd s with
  | Woken true =>
      OneShotController.hit_event (controller_of (fst s)) = true /\
      OneShotController.first_url (controller_of (fst s)) <> None
  | Woken false => t0 <= ticks during
  | Waiting n =>
      OneShotController.hit_event (controller_of (fst s)) = false /\
      n + ticks during = t0 /\ 0 < n
  | Overflowed => (TIMEOUT_MAX < effective_timeout arg_timeout)%Z
  end.
Proof.
  cbv zeta. unfold cmd_oneshot.
  set (cap := run url_write_fails before
                (created oneshot_config OneShotController.init)).
  set (t0 := Z.to_nat (effective_timeout arg_timeout)).
  set (over := (TIMEOUT_MAX < effective_timeout arg_timeout)%Z).
  set (w0 := wait_begin TIMEOUT_MAX (effective_timeout arg_timeout)
               (controller_of cap)).
  assert (Hstart : wait_inv over t0 0 (cap, w0)).
  { split; [apply run_cfg|].
    unfold w0, wait_begin, wait_poll, controller_of. fold t0. simpl.
    destruct (OneShotController.hit_event (listener (parser cap))) eqn:E;
      [reflexivity|].
    destruct (TIMEOUT_MAX <? effective_timeout arg_timeout)%Z eqn:Eo.
    - apply Z.ltb_lt. exact Eo.
    - destruct t0; [simpl; lia|]. simpl. split; [reflexivity|lia]. }
  pose proof (sys_run_inv over t0 during 0 _ Hstart) as [_ Hend].
  simpl in Hend.
  destruct (sys_run_parser during cap w0) as [sched' Hfst].
  destruct (snd (sys_run url_write_fails during (cap, w0))) as [n|[]|];
    [exact Hend| |exact Hend|exact Hend].
  split; [exact Hend|].
  rewrite Hfst in *. unfold cap in *. rewrite <- SessionFacts.run_app in *.
  assert (Hin : in_step (parser (run url_write_fails (before ++ sched')
                   (created oneshot_config OneShotController.init)))).
  { apply run_in_step_from; [reflexivity|].
    split; [reflexivity|]. split; [reflexivity|constructor]. }
  destruct (in_step_latch _ Hin) as [H1 H2].
  unfold controller_of in *. rewrite H1. rewrite H2 in Hend.
  destruct (notified _); [discriminate Hend|discriminate].
Qed.

End System.
End OneShotExtras.

(** ** More on the threads of a session *)
Module SessionExtras.
Import OtaCaptor.

Section Threads.
Context {L : Type}.
Variable url_write_fails : str -> bool.

(** X9. Under every schedule of the threads, the raw log and the lines
    still pending hold together exactly the lines that [start] has put
    on the queue, each as many times as it was put: no line is logged
    more often than it was read, and once nothing is pending the raw
    log holds the lines read, in some order. *)
Theorem raw_log_conserves_lines (cf : @config L) (l0 : L)
    (sched : list event) (line : str) :
  let c := run url_write_fails sched (init cf l0) in
  Permutation (log_file c ++ pending c) (fed c) /\
  occurrences line (log_file c) <= occurrences line (fed c) /\
  match pending c with
  | [] => Permutation (log_file c) (fed c)
  | _ :: _ => True
  end.
Proof.
  cbv zeta.
  pose proof (SessionFacts.run_conserves_lines url_write_fails sched cf l0)
    as H. cbv zeta in H.
  split; [exact H|]. split.
  - unfold occurrences.
    rewrite <- (proj1 (Permutation_count_occ
                         (List.list_eq_dec Ascii.ascii_dec) _ _) H line).
    rewrite count_occ_app. lia.
  - destruct (pending _); [|exact I].
    rewrite app_nil_r in H. exact H.
Qed.

Lemma step_flag e (c : @t L) :
  _stop c = true -> _stop (step url_write_fails e c) = true.
Proof.
  destruct c as [cf q st pr lf pl pa ps fd]. simpl. intros ->.
  destruct e; simpl;
    repeat match goal with
           | |- context [match ?x with _ => _ end] => destruct x; simpl
           end; reflexivity.
Qed.

Lemma run_flag sched : forall (c : @t L),
  _stop c = true -> _stop (run url_write_fails sched c) = true.
Proof.
  induction sched as [|e sched IH]; intros c Hs; simpl; [exact Hs|].
  apply IH, step_flag, Hs.
Qed.

Lemma step_stopped e (c : @t L) :
  proc c <> Some Running -> proc c <> None ->
  proc (step url_write_fails e c) <> Some Running /\
  proc (step url_write_fails e c) <> None.
Proof.
  destruct c as [cf q st pr lf pl pa ps fd]. simpl. intros Hpr Hnone.
  destruct pr as [[]|]; try (exfalso; apply Hpr; reflexivity);
    try (exfalso; apply Hnone; reflexivity);
    destruct e; simpl;
    repeat match goal with
           | |- context [match ?x with _ => _ end] => destruct x; simpl
           end; split; discriminate.
Qed.

Lemma run_stopped sched : forall (c : @t L),
  proc c <> Some Running -> proc c <> None ->
  proc (run url_write_fails sched c) <> Some Running.
Proof.
  induction sched as [|e sched IH]; intros c Hp Hn; simpl; [exact Hp|].
  destruct (step_stopped e c Hp Hn) as [Hp' Hn']. apply IH; assumption.
Qed.

(** Before the launch of logcat nothing but [stop] changes a session. *)
Lemma run_before_launch before (cf : @config L) l0 : forall st0,
  ~ In Popen before ->
  exists st,
    run url_write_fails before
      (Build_t cf [] st0 None [] None true (new_parser l0) [])
    = Build_t cf [] st None [] None true (new_parser l0) [] /\
    (st0 = true \/ In Stop before -> st = true).
Proof.
  induction before as [|e before IH]; intros st0 Hno; simpl.
  - exists st0. split; [reflexivity|]. intros [H|[]]. exact H.
  - assert (Hno' : ~ In Popen before) by (intros H; apply Hno; right; exact H).
    destruct e; simpl;
      try (destruct (IH st0 Hno') as (st & Hrun & Hst);
           exists st; split;
           [try (destruct st0; simpl); exact Hrun
           |intros [H|[H|H]]; [auto|discriminate H|auto]]).
    + destruct (IH true Hno') as (st & Hrun & Hst).
      exists st. split; [destruct st0; exact Hrun|]. intros _. auto.
    + exfalso. apply Hno. left. reflexivity.
Qed.

(** Launched with the stop flag set, logcat runs and its lines are
    queued, but the writer and the parser take none of them. *)
Lemma run_after_launch after (cf : @config L) l0 : forall q,
  ~ In Stop after -> ~ In ProcExit after ->
  exists q',
    run url_write_fails after
      (Build_t cf q true (Some Running) [] None true (new_parser l0) q)
    = Build_t cf q' true (Some Running) [] None true (new_parser l0) q'.
Proof.
  induction after as [|e after IH]; intros q Hs Hx; simpl.
  - exists q. reflexivity.
  - assert (Hs' : ~ In Stop after) by (intros H; apply Hs; right; exact H).
    assert (Hx' : ~ In ProcExit after) by (intros H; apply Hx; right; exact H).
    destruct e; simpl; try (apply IH; assumption).
    + exfalso. apply Hs. left. reflexivity.
    + exfalso. apply Hx. left. reflexivity.
Qed.

(** X10. What [stop] settles and what it does not.  After [stop] the
    flag remains set whatever the threads and the process do, and a
    process that had been launched is never running again.  But when
    [stop] comes before the launch, which [cmd_oneshot] allows, [start]
    launches logcat all the same: as long as nobody calls [stop] again
    and logcat does not exit by itself, the process is running with the
    flag set, its lines are read and queued, and neither the raw log nor
    the parser ever gets one of them. *)
Theorem stopped_is_terminal (c : @t L) (sched : list event)
    (cf : @config L) (l0 : L) (before after : list event) :
  _stop (run url_write_fails sched (stop c)) = true /\
  (proc c <> None ->
   proc (run url_write_fails sched (stop c)) <> Some Running) /\
  (In Stop before -> ~ In Popen before ->
   ~ In Stop after -> ~ In ProcExit after ->
   let c' := run url_write_fails (before ++ Popen :: after) (created cf l0) in
   _stop c' = true /\ proc c' = Some Running /\
   log_file c' = [] /\ parser c' = new_parser l0 /\
   parser_line c' = None /\ _queue c' = fed c').
Proof.
  split; [|split].
  - apply run_flag. destruct c as [cf' q [] pr lf pl pa ps fd]; reflexivity.
  - intros Hn. apply run_stopped.
    + destruct c as [cf' q st [[]|] lf pl pa ps fd]; simpl; discriminate.
    + destruct c as [cf' q st [[]|] lf pl pa ps fd]; simpl;
        try discriminate. exact Hn.
  - intros Hstop Hno Hs Hx. cbv zeta.
    rewrite SessionFacts.run_app.
    destruct (run_before_launch before cf l0 false Hno) as (st & Hrun & Hst).
    unfold created. rewrite Hrun. rewrite Hst by (right; exact Hstop).
    simpl.
    destruct (run_after_launch after cf l0 [] Hs Hx) as (q' & ->).
    simpl. repeat split.
Qed.

End Threads.

Lemma stopped_is_terminal_witness :
  let before := [Stop] in
  let after := [Feed (deadbeef_line [] " "); WriterStep; ParserGet;
                ParserScan; WriterStep] in
  let c' := run (fun _ => false) (before ++ Popen :: after)
              (created logging_config []) in
  In Stop before /\ ~ In Popen before /\
  ~ In Stop after /\ ~ In ProcExit after /\
  proc (init logging_config []) <> None /\
  proc (run (fun _ => false) [Popen; Feed payload_line]
          (stop (init logging_config []))) <> Some Running /\
  proc c' = Some Running /\ log_file c' = [] /\
  _queue c' = [deadbeef_line [] " "].
Proof.
  cbv zeta.
  assert (H0 : proc (init logging_config []) <> None) by discriminate.
  assert (H1 : In (@Stop) [@Stop]) by (left; reflexivity).
  assert (H2 : ~ In (@Popen) [@Stop]) by (intros [H|[]]; discriminate H).
  assert (H3 : ~ In Stop [Feed (deadbeef_line [] " "); WriterStep; ParserGet;
                         ParserScan; WriterStep])
    by (intros [H|[H|[H|[H|[H|[]]]]]]; discriminate H).
  assert (H4 : ~ In ProcExit [Feed (deadbeef_line [] " "); WriterStep;
                             ParserGet; ParserScan; WriterStep])
    by (intros [H|[H|[H|[H|[H|[]]]]]]; discriminate H).
  split; [exact H1|]. split; [exact H2|]. split; [exact H3|].
  split; [exact H4|]. split; [exact H0|].
  destruct (stopped_is_terminal (fun _ => false)
              (init logging_config []) [Popen; Feed payload_line]
              logging_config [] [Stop]
              [Feed (deadbeef_line [] " "); WriterStep; ParserGet;
               ParserScan; WriterStep])
    as (_ & Hnever & H).
  split; [exact (Hnever H0)|].
  destruct (H H1 H2 H3 H4) as (_ & Hp & Hl & _ & _ & Hq).
  split; [exact Hp|]. split; [exact Hl|]. rewrite Hq. reflexivity.
Defined.

End SessionExtras.

(** ** The [download-latest] workflow *)
Module DownloadLatestFacts.
Import OtaCaptor DownloadLatest StripFacts UrlFacts.

Local Open Scope Z_scope.

(** [max] returns the first of the greatest. *)
Lemma max_by_mtime_split : forall rest best,
  exists pre post,
    best :: rest = pre ++ max_by_mtime best rest :: post /\
    Forall (fun g => mtime g < mtime (max_by_mtime best rest)) pre /\
    Forall (fun g => mtime g <= mtime (max_by_mtime best rest)) post.
Proof.
  induction rest as [|f rest IH]; intros best; simpl.
  - exists [], []. repeat split; constructor.
  - destruct (mtime best <? mtime f) eqn:E.
    + apply Z.ltb_lt in E.
      destruct (IH f) as (pre & post & Hsplit & Hpre & Hpost).
      exists (best :: pre), post. rewrite Hsplit at 1.
      split; [reflexivity|]. split; [|exact Hpost].
      constructor; [|exact Hpre].
      assert (Hf : mtime f <= mtime (max_by_mtime f rest)).
      { assert (Hin : In f (pre ++ max_by_mtime f rest :: post))
          by (rewrite <- Hsplit; left; reflexivity).
        apply in_app_or in Hin as [Hin|[Heq|Hin]].
        - apply Z.lt_le_incl.
          exact (proj1 (List.Forall_forall _ _) Hpre f Hin).
        - rewrite Heq. lia.
        - exact (proj1 (List.Forall_forall _ _) Hpost f Hin). }
      lia.
    + apply Z.ltb_ge in E.
      destruct (IH best) as (pre & post & Hsplit & Hpre & Hpost).
      destruct pre as [|b pre].
      * simpl in Hsplit. injection Hsplit as Hb Hr. subst post.
        exists [], (f :: rest). rewrite <- Hb in *.
        split; [reflexivity|]. split; [constructor|].
        constructor; [exact E|exact Hpost].
      * simpl in Hsplit. injection Hsplit as <- Hr.
        exists (best :: f :: pre), post.
        split; [rewrite Hr at 1; reflexivity|]. split; [|exact Hpost].
        inversion Hpre as [|? ? Hb Hpre']; subst.
        constructor; [exact Hb|]. constructor; [lia|exact Hpre'].
Qed.

Lemma max_by_mtime_newest best rest :
  In (max_by_mtime best rest) (best :: rest) /\
  forall g, In g (best :: rest) -> mtime g <= mtime (max_by_mtime best rest).
Proof.
  destruct (max_by_mtime_split rest best) as (pre & post & Hs & Hpre & Hpost).
  split.
  - rewrite Hs. apply in_or_app. right. left. reflexivity.
  - intros g Hg. rewrite Hs in Hg.
    apply in_app_or in Hg as [Hg|[<-|Hg]].
    + apply Z.lt_le_incl. exact (proj1 (List.Forall_forall _ _) Hpre g Hg).
    + lia.
    + exact (proj1 (List.Forall_forall _ _) Hpost g Hg).
Qed.

Lemma newest_of_candidates dir f rest :
  List.filter (fun g => is_url_list (name g)) dir = f :: rest ->
  newest_url_list dir (max_by_mtime f rest).
Proof.
  intros Hfil.
  destruct (max_by_mtime_newest f rest) as [Hin Hmax].
  rewrite <- Hfil in Hin, Hmax.
  apply filter_In in Hin as [Hin Hname].
  split; [exact Hin|]. split; [exact Hname|].
  intros g Hg Hc. apply Hmax. apply filter_In. auto.
Qed.

(** X11. What [cmd_download_latest] does with any directory.  It warns
    that there is no URL list exactly when no file name begins with
    [ota_urls_] and ends in [.txt].  Otherwise it reads a URL list that
    no other is newer than: if that file has no line with anything but
    whitespace, it warns that the list is empty; if it has, the download
    is that of the canonical form of its last such line, under the name
    [friendly_name_from_url] gives it. *)
Theorem download_latest_cases (dir : list file) :
  match cmd_download_latest dir with
  | NoUrlFiles => Forall (fun f => is_url_list (name f) = false) dir
  | EmptyUrlList n =>
      exists f, newest_url_list dir f /\ n = name f /\
                stripped_lines (content f) = []
  | Download url out =>
      exists f l,
        newest_url_list dir f /\
        List.last (stripped_lines (content f)) [] = l /\ l <> [] /\
        url = sanitize_url l /\ out = friendly_name_from_url url
  end.
Proof.
  unfold cmd_download_latest.
  destruct (List.filter (fun g => is_url_list (name g)) dir)
    as [|f rest] eqn:Hfil.
  - apply List.Forall_forall. intros g Hg.
    destruct (is_url_list (name g)) eqn:E; [|reflexivity].
    assert (Hin : In g (List.filter (fun g => is_url_list (name g)) dir))
      by (apply filter_In; auto).
    rewrite Hfil in Hin. contradiction.
  - pose proof (newest_of_candidates dir f rest Hfil) as Hnew.
    cbv zeta.
    destruct (rev (stripped_lines (content (max_by_mtime f rest))))
      as [|l ls] eqn:Hrev.
    + exists (max_by_mtime f rest). split; [exact Hnew|].
      split; [reflexivity|].
      apply (f_equal (@rev str)) in Hrev. rewrite rev_involutive in Hrev.
      exact Hrev.
    + exists (max_by_mtime f rest), l. split; [exact Hnew|].
      apply (f_equal (@rev str)) in Hrev. rewrite rev_involutive in Hrev.
      simpl in Hrev. split; [rewrite Hrev; apply last_last|].
      split; [|auto].
      assert (Hin : In l (stripped_lines (content (max_by_mtime f rest))))
        by (rewrite Hrev; apply in_or_app; right; left; reflexivity).
      unfold stripped_lines in Hin. apply filter_In in Hin as [_ Hl].
      intros ->. discriminate Hl.
Qed.

End DownloadLatestFacts.

(** ** From a capture session to [download-latest] *)
Module CaptureThenDownload.
Import OtaCaptor DownloadLatest StripFacts UrlFacts.

Lemma line_urls_are_canonical line u : In u (line_urls line) -> canonical u.
Proof.
  intros Hin.
  destruct (line_urls_canonical _ _ Hin) as (_ & [t Ht] & Hc & _ & Hs).
  split; [rewrite Ht; discriminate|]. split; [exact Hc|exact Hs].
Qed.

(** Reading back what the parser wrote. *)
Lemma universal_newlines_id s :
  Forall (fun c => c <> "013"%char) s -> universal_newlines s = s.
Proof.
  induction 1 as [|c s Hc Hs IH]; simpl; [reflexivity|].
  apply Ascii.eqb_neq in Hc. rewrite Hc, IH. reflexivity.
Qed.

Lemma file_lines_line u rest :
  Forall (fun c => c <> "010"%char) u ->
  file_lines (u ++ nl ++ rest) = (u ++ nl) :: file_lines rest.
Proof.
  induction 1 as [|c u Hc Hu IH]; simpl; [reflexivity|].
  apply Ascii.eqb_neq in Hc. rewrite Hc.
  simpl in IH. rewrite IH. reflexivity.
Qed.

Lemma url_char_not_cr c : url_char c = true -> c <> "013"%char.
Proof. intros H ->. discriminate H. Qed.

Lemma url_char_not_lf c : url_char c = true -> c <> "010"%char.
Proof. intros H ->. discriminate H. Qed.

Lemma rstrip_by_none p s :
  Forall (fun c => p c = false) s -> Py.rstrip_by p s = s.
Proof.
  intros H. destruct s as [|c s _] using rev_ind; [reflexivity|].
  apply Forall_app in H as [_ H]. inversion H; subst.
  apply rstrip_by_keeps. assumption.
Qed.

Lemma strip_written u : canonical u -> Py.strip (u ++ nl) = u.
Proof.
  intros (Hne & Hc & _). unfold Py.strip, Py.strip_by.
  destruct u as [|c t]; [congruence|].
  assert (Hsp : Forall (fun c => Py.isspace c = false) (c :: t))
    by (eapply Forall_impl; [exact Hc|]; apply url_char_not_space).
  change ((c :: t) ++ nl) with (c :: (t ++ nl)).
  rewrite lstrip_by_keeps by (inversion Hsp; assumption).
  change (c :: t ++ nl) with ((c :: t) ++ ["010"%char]).
  rewrite rstrip_by_snoc. change (Py.isspace "010") with true. cbv iota.
  apply rstrip_by_none, Hsp.
Qed.

Lemma read_written D :
  Forall canonical D ->
  stripped_lines (concat (map (fun u => u ++ nl) D)) = D.
Proof.
  intros HD. unfold stripped_lines.
  rewrite universal_newlines_id.
  - induction HD as [|u D Hu HD IH]; [reflexivity|].
    simpl. rewrite <- app_assoc.
    rewrite file_lines_line
      by (eapply Forall_impl; [apply Hu|]; apply url_char_not_lf).
    simpl. rewrite (strip_written u Hu), IH.
    destruct Hu as (Hne & _). rewrite bool_decide_eq_false_2 by exact Hne.
    reflexivity.
  - induction HD as [|u D Hu HD IH]; [constructor|].
    simpl. apply Forall_app. split; [|exact IH].
    apply Forall_app. split; [|repeat constructor; discriminate].
    eapply Forall_impl; [apply Hu|]. apply url_char_not_cr.
Qed.

(** The greatest key is found wherever it is in the list. *)
Lemma max_by_mtime_keeps best l :
  Forall (fun g => (mtime g <= mtime best)%Z) l -> max_by_mtime best l = best.
Proof.
  induction 1 as [|g l Hg Hl IH]; simpl; [reflexivity|].
  apply Z.ltb_ge in Hg. rewrite Hg. exact IH.
Qed.

Lemma max_by_mtime_reaches l1 : forall best f l2,
  (mtime best < mtime f)%Z ->
  Forall (fun g => (mtime g < mtime f)%Z) l1 ->
  Forall (fun g => (mtime g <= mtime f)%Z) l2 ->
  max_by_mtime best (l1 ++ f :: l2) = f.
Proof.
  induction l1 as [|g l1 IH]; intros best f l2 Hb H1 H2; simpl.
  - apply Z.ltb_lt in Hb. rewrite Hb. apply max_by_mtime_keeps, H2.
  - inversion H1; subst.
    destruct (mtime best <? mtime g)%Z; apply IH; assumption.
Qed.

Lemma filter_older (P : file -> Prop) dir :
  Forall (fun g => is_url_list (name g) = true -> P g) dir ->
  Forall P (List.filter (fun g => is_url_list (name g)) dir).
Proof.
  induction 1 as [|g dir Hg Hdir IH]; simpl; [constructor|].
  destruct (is_url_list (name g)) eqn:E; [constructor; auto|exact IH].
Qed.

Lemma newest_is_read f before after :
  is_url_list (name f) = true ->
  Forall (fun g => is_url_list (name g) = true -> (mtime g < mtime f)%Z)
    before ->
  Forall (fun g => is_url_list (name g) = true -> (mtime g <= mtime f)%Z)
    after ->
  cmd_download_latest (before ++ f :: after)
  = match rev (stripped_lines (content f)) with
    | [] => EmptyUrlList (name f)
    | last_line :: _ =>
        Download (sanitize_url last_line)
          (friendly_name_from_url (sanitize_url last_line))
    end.
Proof.
  intros Hf Hb Ha. unfold cmd_download_latest.
  rewrite List.filter_app. simpl. rewrite Hf.
  apply filter_older in Hb. apply filter_older in Ha.
  destruct (List.filter (fun g => is_url_list (name g)) before)
    as [|g fb]; simpl.
  - rewrite (max_by_mtime_keeps f _ Ha). reflexivity.
  - inversion Hb; subst.
    rewrite (max_by_mtime_reaches fb g f _) by assumption. reflexivity.
Qed.

Section Session.
Context {L : Type}.
Variable url_write_fails : str -> bool.

(** The URL file of a session has one line per canonical URL. *)
Lemma handle_url_written cf u (p : @parser_state L) :
  canonical u ->
  (exists D, url_file p = map (fun u => u ++ nl) D /\ Forall canonical D) ->
  exists D,
    url_file (state_of (handle_url url_write_fails cf u p))
    = map (fun u => u ++ nl) D /\ Forall canonical D.
Proof.
  intros Hu (D & Hf & HD). unfold handle_url.
  destruct (decide (u ∈ _seen p)); [exists D; auto|].
  cbv zeta. destruct (url_write_fails u); [exists D; auto|].
  exists (D ++ [u]). split.
  - destruct (on_new_url cf) as [cb|], (auto_download cf);
      unfold swallow, invoke; simpl;
      try destruct (snd (cb u (listener p))); simpl;
      rewrite Hf, map_app; reflexivity.
  - apply Forall_app. split; [exact HD|]. constructor; [exact Hu|constructor].
Qed.

Lemma run_written sched (cf : @config L) l0 :
  exists D,
    url_file (parser (run url_write_fails sched (init cf l0)))
    = map (fun u => u ++ nl) D /\ Forall canonical D.
Proof.
  induction sched as [|e sched IH] using rev_ind.
  - exists []. split; [reflexivity|constructor].
  - rewrite SessionFacts.run_app. simpl.
    destruct (run url_write_fails sched (init cf l0))
      as [cf' q st pr lf pl pa ps fd]. simpl in IH.
    destruct e; simpl;
      try (repeat match goal with
                  | |- context [match ?x with _ => _ end] => destruct x; simpl
                  end; exact IH).
    destruct pl as [line|]; [|exact IH].
    pose proof (OneShotExtras.for_each_state_preserves_in
                  (fun p => exists D, url_file p = map (fun u => u ++ nl) D /\
                                      Forall canonical D)
                  (handle_url url_write_fails cf') (line_urls line)
                  (fun u a Hu => handle_url_written cf' u a
                                   (line_urls_are_canonical line u Hu))
                  ps IH) as Hscan.
    unfold scan_line.
    destruct (for_each (handle_url url_write_fails cf') (line_urls line) ps);
      exact Hscan.
Qed.

(** X12. Capture, then [download-latest].  Take the URL file of a
    session in any state that a schedule of its threads can reach, with
    nothing in it but what the session wrote, in a directory where the
    other URL lists before it are older and those after it are not
    newer (the raw log of the session, whatever its age, is not a URL
    list).  Then [cmd_download_latest] downloads the URL that the
    session wrote last, under the name [friendly_name_from_url] gives
    it, and warns of an empty list when the session wrote none. *)
Theorem download_latest_after_capture (cf : @config L) (l0 : L)
    (sched : list event) (stamp : str) (t : Z) (before after : list file) :
  let c := run url_write_fails sched (init cf l0) in
  let urls := {| name := url_file_name stamp; mtime := t;
                 content := concat (url_file (parser c)) |} in
  Forall (fun g => is_url_list (name g) = true -> (mtime g < t)%Z) before ->
  Forall (fun g => is_url_list (name g) = true -> (mtime g <= t)%Z) after ->
  is_url_list (log_file_name stamp) = false /\
  exists D,
    url_file (parser c) = map (fun u => u ++ nl) D /\
    cmd_download_latest (before ++ urls :: after)
    = match rev D with
      | [] => EmptyUrlList (url_file_name stamp)
      | u :: _ => Download u (friendly_name_from_url u)
      end.
Proof.
  cbv zeta. intros Hb Ha. split; [reflexivity|].
  destruct (run_written sched cf l0) as (D & Hf & HD).
  exists D. split; [exact Hf|].
  rewrite newest_is_read; [| |exact Hb|exact Ha].
  - simpl. rewrite Hf, (read_written D HD).
    destruct (rev D) as [|u rest] eqn:Hrev; [reflexivity|].
    assert (Hu : canonical u).
    { apply (proj1 (List.Forall_forall _ _) HD).
      apply in_rev. rewrite Hrev. left. reflexivity. }
    destruct Hu as (_ & _ & ->). reflexivity.
  - simpl. unfold is_url_list, url_file_name.
    rewrite PyFacts.startswith_app, app_assoc, PyFacts.endswith_app.
    reflexivity.
Qed.

End Session.

Lemma download_latest_after_capture_witness :
  let c := run (fun _ => false)
             [Feed payload_line; Feed (deadbeef_line [] " ");
              ParserGet; ParserScan; ParserGet; ParserScan; WriterStep]
             (init logging_config []) in
  let dir :=
    [ {| name := url_file_name (lit "20240101_000000"); mtime := 5;
         content := lit "https://old.example/payload.zip" ++ nl |};
      {| name := url_file_name (lit "20240102_101500"); mtime := 9;
         content := concat (url_file (parser c)) |};
      {| name := log_file_name (lit "20240102_101500"); mtime := 12;
         content := concat (log_file c) |} ] in
  cmd_download_latest dir
  = Download deadbeef_url (lit "ota_DEADBEEF01.zip").
Proof.
  cbv zeta.
  destruct (download_latest_after_capture (fun _ => false) logging_config []
              [Feed payload_line; Feed (deadbeef_line [] " ");
               ParserGet; ParserScan; ParserGet; ParserScan; WriterStep]
              (lit "20240102_101500") 9
              [ {| name := url_file_name (lit "20240101_000000"); mtime := 5;
                   content := lit "https://old.example/payload.zip" ++ nl |} ]
              [ {| name := log_file_name (lit "20240102_101500"); mtime := 12;
                   content :=
                     concat (log_file
                       (run (fun _ => false)
                          [Feed payload_line; Feed (deadbeef_line [] " ");
                           ParserGet; ParserScan; ParserGet; ParserScan;
                           WriterStep] (init logging_config []))) |} ])
    as (_ & D & HD & Hres).
  - constructor; [|constructor]. intros _. reflexivity.
  - constructor; [|constructor]. intros H. vm_compute in H. discriminate H.
  - etransitivity; [exact Hres|].
    assert (E : D = [lit "https://example.com/ota/payload.bin"; deadbeef_url]).
    { assert (Hmap : map (fun u => u ++ nl) D
                     = map (fun u => u ++ nl)
                         [lit "https://example.com/ota/payload.bin";
                          deadbeef_url])
        by (rewrite <- HD; vm_compute; reflexivity).
      clear HD Hres. revert Hmap.
      generalize [lit "https://example.com/ota/payload.bin"; deadbeef_url].
      induction D as [|u D IH]; intros [|v l] Hm; try discriminate Hm.
      - reflexivity.
      - simpl in Hm. injection Hm as Hu Hm.
        apply app_inv_tail in Hu. subst v. f_equal. apply IH. exact Hm. }
    rewrite E. vm_compute. reflexivity.
Defined.

End CaptureThenDownload.

(** ** The download *)
Module DownloadFacts.
Import Download.

(** The loop goes through reads that return data. *)
Lemma copy_loop_prefix bar reads bufs : forall fuel i written adv,
  (forall j buf, bufs !! j = Some buf ->
     reads (i + j) chunk = Returns buf /\ buf <> []) ->
  copy_loop (length bufs + fuel) bar reads i written adv
  = copy_loop fuel bar reads (i + length bufs) (written ++ concat bufs)
      (if bar then adv + length (concat bufs) else adv).
Proof.
  induction bufs as [|buf bufs IH]; intros fuel i written adv H.
  - simpl. rewrite Nat.add_0_r, app_nil_r, Nat.add_0_r.
    destruct bar; reflexivity.
  - destruct (H 0 buf eq_refl) as [Hread Hne]. rewrite Nat.add_0_r in Hread.
    cbn [length Nat.add copy_loop]. rewrite Hread.
    destruct buf as [|b buf]; [contradiction|].
    rewrite IH.
    + cbn [concat]. rewrite <- app_assoc, length_app.
      replace (S i + length bufs) with (i + S (length bufs)) by lia.
      destruct bar; [rewrite Nat.add_assoc|]; reflexivity.
    + intros j buf' Hj. replace (S i + j) with (i + S j) by lia.
      apply H. exact Hj.
Qed.

(** X13. What [download_with_progress] does with a response, read by
    read.  Let the first reads return the buffers [bufs], none of them
    empty.  As long as only these reads are made the call has not
    returned.  If the next read returns nothing, the file holds the
    buffers in order and [Saved] is printed; if it raises, the file
    holds the same bytes and stays, and [Saved] is not printed; if it
    does not return, neither does the call.  The length announced by the
    response plays no part in the file or in [Saved]; the progress bar,
    when shown, has advanced by the length of the file. *)
Theorem download_copies_reads (_RICH : bool) (len : option nat)
    (reads : nat -> nat -> read_result) (bufs : list (list Byte.byte)) :
  (forall i buf, bufs !! i = Some buf ->
     reads i chunk = Returns buf /\ buf <> []) ->
  let call := download_with_progress _RICH (Opened len reads) in
  let bar := _RICH && negb (default 0 len =? 0) in
  let done ok :=
    {| out_file := Some (concat bufs);
       advanced := (if bar then length (concat bufs) else 0);
       saved := ok |} in
  (forall fuel, fuel <= length bufs -> exists e, call fuel = Reading e) /\
  (forall fuel, length bufs < fuel ->
     match reads (length bufs) chunk with
     | Returns [] => call fuel = Returned (done true)
     | Raises => call fuel = Returned (done false)
     | Blocks => call fuel = Blocked (done false)
     | Returns (_ :: _) => True
     end).
Proof.
  intros H. cbv zeta. unfold download_with_progress. split.
  - intros fuel Hle.
    pose proof (copy_loop_prefix (_RICH && negb (default 0 len =? 0)) reads
                  (take fuel bufs) 0 0 [] 0) as Hp.
    rewrite length_take in Hp. rewrite Nat.min_l in Hp by exact Hle.
    rewrite Nat.add_0_r in Hp.
    rewrite Hp; [simpl; eexists; reflexivity|].
    intros j buf Hj. apply H. rewrite lookup_take_Some in Hj. apply Hj.
  - intros fuel Hlt.
    replace fuel with (length bufs + S (fuel - S (length bufs))) by lia.
    rewrite (copy_loop_prefix _ reads bufs _ 0 [] 0 H).
    cbn [copy_loop Nat.add app].
    destruct (reads (length bufs) chunk) as [[|b buf]| |];
      try exact I; destruct (_RICH && negb (default 0 len =? 0));
      reflexivity.
Qed.

Lemma download_copies_reads_witness :
  let bufs := [[Byte.x50; Byte.x4b]; [Byte.x03]] in
  (forall i buf, bufs !! i = Some buf ->
     (match i with
      | 0 => Returns [Byte.x50; Byte.x4b]
      | 1 => Returns [Byte.x03]
      | _ => Returns []
      end) = Returns buf /\ buf <> []) /\
  download_with_progress true short_response 3
  = Returned {| out_file := Some [Byte.x50; Byte.x4b; Byte.x03];
                advanced := 3; saved := true |}.
Proof.
  cbv zeta.
  assert (H : forall i buf,
            [[Byte.x50; Byte.x4b]; [Byte.x03]] !! i = Some buf ->
            (match i with
             | 0 => Returns [Byte.x50; Byte.x4b]
             | 1 => Returns [Byte.x03]
             | _ => Returns []
             end) = Returns buf /\ buf <> []).
  { intros [|[|i]] buf Hi.
    - injection Hi as <-. split; [reflexivity|discriminate].
    - injection Hi as <-. split; [reflexivity|discriminate].
    - discriminate Hi. }
  split; [exact H|].
  destruct (download_copies_reads true (Some 10)
              (fun i _ => match i with
                          | 0 => Returns [Byte.x50; Byte.x4b]
                          | 1 => Returns [Byte.x03]
                          | _ => Returns []
                          end)
              [[Byte.x50; Byte.x4b]; [Byte.x03]] H) as [_ Hend].
  exact (Hend 3 (le_n 3)).
Defined.

End DownloadFacts.

(** ** The matcher finds the OTA URLs, and nothing else *)
Module OtaUrlFacts.
Import Re ReFacts StripFacts UrlFacts.

Lemma sem_target t rest cap cap' :
  sem (Alt (Seq [Lit (lit "packages/ota-api/package/"); Plus hex_digit;
                 Lit (lit ".zip")])
           (Seq [Lit (lit "payload.");
                 Alt (Lit (lit "bin")) (Lit (lit "zip"))]))
      t rest cap cap' <-> ota_target t /\ cap' = cap.
Proof.
  cbn [sem Seq]. split.
  - intros [(w1 & w2 & c1 & -> & H1 & w3 & w4 & c2 & -> & H3 & w5 & w6 & c3
             & -> & H5 & -> & ->)
           |(w1 & w2 & c1 & -> & H1 & w3 & w4 & c2 & -> & H3 & -> & ->)].
    + apply sem_Lit in H1 as [-> ->]. destruct H3 as (Hne & Hhex & ->).
      apply sem_Lit in H5 as [-> ->]. rewrite app_nil_r.
      split; [|reflexivity]. left. exists w3. auto.
    + apply sem_Lit in H1 as [-> ->]. rewrite app_nil_r.
      destruct H3 as [H3|H3]; apply sem_Lit in H3 as [-> ->];
        (split; [|reflexivity]); [right; left|right; right]; reflexivity.
  - intros [[(h & Hne & Hhex & ->)|[->| ->]] ->].
    + left. exists (lit "packages/ota-api/package/"), (h ++ lit ".zip"), cap.
      split; [reflexivity|]. split; [apply sem_Lit; auto|].
      exists h, (lit ".zip"), cap. split; [reflexivity|]. split; [auto|].
      exists (lit ".zip"), [], cap. rewrite app_nil_r.
      split; [reflexivity|]. split; [apply sem_Lit; auto|auto].
    + right. exists (lit "payload."), (lit "bin"), cap.
      split; [reflexivity|]. split; [apply sem_Lit; auto|].
      exists (lit "bin"), [], cap. split; [reflexivity|].
      split; [left; apply sem_Lit; auto|auto].
    + right. exists (lit "payload."), (lit "zip"), cap.
      split; [reflexivity|]. split; [apply sem_Lit; auto|].
      exists (lit "zip"), [], cap. split; [reflexivity|].
      split; [right; apply sem_Lit; auto|auto].
Qed.

(** What [URL_REGEX] can consume is the text of an OTA URL. *)
Lemma url_sem_iff w rest :
  sem URL_REGEX w rest None (Some w) <-> ota_url w.
Proof.
  unfold URL_REGEX.
  change (sem (Group ?r) w rest None (Some w))
    with ((exists c0, sem r w rest None c0) /\ Some w = Some w).
  cbn [Seq].
  split.
  - intros [[c0 Hs] _]. cbn [sem] in Hs.
    destruct Hs as (w1 & w2 & c1 & -> & H1 & w3 & w4 & c2 & -> & H3
                    & w5 & w6 & c3 & -> & H5 & w7 & w8 & c4 & -> & H7
                    & w9 & w10 & c5 & -> & H9 & w11 & w12 & c6 & -> & H11
                    & -> & ->).
    apply sem_Lit in H1 as [-> ->]. apply sem_Lit in H5 as [-> ->].
    destruct H7 as [Hmid ->].
    apply (sem_target w9) in H9 as [Ht ->].
    rewrite app_nil_r.
    assert (Hq : w11 = [] \/
                 exists q, w11 = "?"%char :: q /\
                           Forall (fun c => url_char c = true) q).
    { destruct H11 as [(q1 & q2 & c7 & -> & [-> _] & q3 & q4 & c8 & -> & [Hq _]
                        & -> & _)|[-> _]]; [|auto].
      right. exists q3. rewrite app_nil_r. auto. }
    destruct H3 as [[-> _]|[-> _]].
    + exists (lit "https"), w7, w9, w11. repeat split; auto.
    + exists (lit "http"), w7, w9, w11. repeat split; auto.
  - intros (scheme & mid & t & query & -> & Hscheme & Hmid & Ht & Hq).
    split; [|reflexivity]. exists None. cbn [sem].
    exists (lit "http"),
      ((if decide (scheme = lit "https") then ["s"%char] else [])
       ++ lit "://" ++ mid ++ t ++ query), None.
    split; [destruct Hscheme as [-> | ->]; reflexivity|].
    split; [apply sem_Lit; auto|].
    exists (if decide (scheme = lit "https") then ["s"%char] else []),
      (lit "://" ++ mid ++ t ++ query), None.
    split; [reflexivity|].
    split; [destruct Hscheme as [-> | ->]; simpl; auto|].
    exists (lit "://"), (mid ++ t ++ query), None.
    split; [reflexivity|]. split; [apply sem_Lit; auto|].
    exists mid, (t ++ query), None. split; [reflexivity|]. split; [auto|].
    exists t, query, None. split; [reflexivity|].
    split; [apply sem_target; auto|].
    exists query, [], None. rewrite app_nil_r. split; [reflexivity|].
    split; [|auto].
    destruct Hq as [->|(q & -> & Hq)]; [right; auto|left].
    exists ["?"%char], q, None. split; [reflexivity|]. split; [split; auto|].
    exists q, [], None. rewrite app_nil_r. auto.
Qed.

Lemma finditer_nonempty r : forall s,
  is_Some (search r s) -> finditer_from r 0 s <> [].
Proof.
  induction s as [|c t IH]; intros [m Hm]; simpl in *.
  - destruct (match_at r []); [discriminate|discriminate Hm].
  - destruct (match_at r (c :: t)); [discriminate|]. apply IH. eauto.
Qed.

(** X14. A line that contains the text of an OTA URL never goes
    unnoticed: the parser's loop gets at least one URL from it. *)
Theorem matcher_finds_ota_urls (pre w rest : str) :
  ota_url w -> line_urls (pre ++ w ++ rest) <> [].
Proof.
  intros Hw. apply (url_sem_iff w rest) in Hw.
  pose proof (search_complete URL_REGEX pre w rest _ Hw) as Hs.
  apply finditer_nonempty in Hs.
  unfold line_urls, finditer. intros E. apply map_eq_nil in E. contradiction.
Qed.

Lemma matcher_finds_ota_urls_witness :
  ota_url (lit "http://10.0.0.2:8080/full/payload.zip?token=1") /\
  line_urls (lit "D/cronet: GET http://10.0.0.2:8080/full/payload.zip?token=1 200")
  <> [].
Proof.
  assert (H : ota_url (lit "http://10.0.0.2:8080/full/payload.zip?token=1")).
  { exists (lit "http"), (lit "10.0.0.2:8080/full/"), (lit "payload.zip"),
      (lit "?token=1").
    split; [reflexivity|]. split; [left; reflexivity|].
    split; [apply (Forall_lit url_char); reflexivity|].
    split; [right; right; reflexivity|].
    right. exists (lit "token=1"). split; [reflexivity|].
    apply (Forall_lit url_char). reflexivity. }
  split; [exact H|].
  apply (matcher_finds_ota_urls (lit "D/cronet: GET ") _ (lit " 200") H).
Defined.

Lemma ota_target_last t :
  ota_target t -> exists t0 x, t = t0 ++ [x] /\ closing_char x = false.
Proof.
  intros [(h & _ & _ & ->)|[->| ->]].
  - exists (lit "packages/ota-api/package/" ++ h ++ lit ".zi"), "p"%char.
    split; [rewrite <- !app_assoc; reflexivity|reflexivity].
  - exists (lit "payload.bi"), "n"%char. split; reflexivity.
  - exists (lit "payload.zi"), "p"%char. split; reflexivity.
Qed.

(** X15. Every URL that the parser's loop gets from a line is the text
    of an OTA URL: [http] or [https], [://], characters of a URL, then
    the package of an OTA with its hash or a payload, then a query
    string or nothing. *)
Theorem reported_urls_are_ota_urls (line u : str) :
  In u (line_urls line) -> ota_url u.
Proof.
  unfold line_urls, finditer. intros Hin.
  apply in_map_iff in Hin as (m & <- & Hm).
  apply finditer_from_sound in Hm as (pre & rest & _ & Hsem).
  pose proof (url_sem _ _ _ _ Hsem) as (Hcap & Hhttp & Hchars).
  rewrite Hcap in *. simpl.
  rewrite (sanitize_match _ Hhttp Hchars).
  apply url_sem_iff in Hsem
    as (scheme & mid & t & query & Hw & Hscheme & Hmid & Ht & Hq).
  destruct (ota_target_last t Ht) as (t0 & x & Htx & Hx).
  rewrite Hw, Htx.
  replace (scheme ++ lit "://" ++ mid ++ (t0 ++ [x]) ++ query)
    with ((scheme ++ lit "://" ++ mid ++ t0) ++ x :: query)
    by (rewrite <- !app_assoc; reflexivity).
  rewrite (rstrip_by_app closing_char _ x query Hx).
  exists scheme, mid, t, (Py.rstrip_by closing_char query).
  split; [rewrite Htx, <- !app_assoc; reflexivity|].
  split; [exact Hscheme|]. split; [exact Hmid|]. split; [exact Ht|].
  destruct Hq as [->|(q & -> & Hq)]; [left; reflexivity|right].
  exists (Py.rstrip_by closing_char q). split.
  - apply (rstrip_by_app closing_char [] "?"%char q). reflexivity.
  - destruct (rstrip_by_split closing_char q) as (r & Hr & _).
    rewrite Hr in Hq. apply Forall_app in Hq as [Hq _]. exact Hq.
Qed.

Lemma reported_urls_are_ota_urls_witness :
  In deadbeef_url (line_urls (deadbeef_line ["034"%char] " ")) /\
  ota_url deadbeef_url.
Proof.
  assert (H : In deadbeef_url (line_urls (deadbeef_line ["034"%char] " ")))
    by (vm_compute; left; reflexivity).
  split; [exact H|]. apply (reported_urls_are_ota_urls _ _ H).
Defined.

End OtaUrlFacts.

(** ** What a session reports comes from the log *)
Module ProvenanceFacts.
Import OtaCaptor.

Section Threads.
Context {L : Type}.
Variable url_write_fails : str -> bool.

Lemma from_log_more fed line u : from_log fed u -> from_log (fed ++ [line]) u.
Proof.
  intros (l & Hl & Hu). exists l. split; [apply in_or_app; auto|exact Hu].
Qed.

Lemma handle_url_reported cf fed u (p : @parser_state L) :
  from_log fed u ->
  (forall v, reported p v -> from_log fed v) ->
  forall v, reported (state_of (handle_url url_write_fails cf u p)) v ->
            from_log fed v.
Proof.
  intros Hu Hp v. unfold handle_url.
  destruct (decide (u ∈ _seen p)); [apply Hp|].
  assert (Hcase : forall v, v = u \/ reported p v -> from_log fed v).
  { intros v' [->|H]; auto. }
  cbv zeta. destruct (url_write_fails u).
  - unfold reported. simpl. intros [H|H]; apply Hcase.
    + apply elem_of_union in H as [H|H];
        [left; set_solver|right; left; exact H].
    + right. right. exact H.
  - unfold reported.
    destruct (on_new_url cf) as [cb|], (auto_download cf);
      unfold swallow, invoke; simpl;
      try destruct (snd (cb u (listener p))); simpl;
      rewrite ?map_app, ?in_app_iff; simpl;
      intros H; apply Hcase; unfold reported;
      repeat match type of H with
             | _ \/ _ => destruct H as [H|H]
             end;
      try (apply elem_of_union in H as [H|H]; [left; set_solver|]);
      try (apply app_inv_tail in H); try contradiction; subst; auto 6.
Qed.

Lemma step_reported e (c : @t L) :
  Permutation (log_file c ++ pending c) (fed c) ->
  (forall v, reported (parser c) v -> from_log (fed c) v) ->
  forall v, reported (parser (step url_write_fails e c)) v ->
            from_log (fed (step url_write_fails e c)) v.
Proof.
  destruct c as [cf q st pr lf pl pa ps fd]. unfold pending. simpl.
  intros Hperm Hp.
  destruct e; simpl;
    try (repeat match goal with
                | |- context [match ?x with _ => _ end] => destruct x; simpl
                end; solve [exact Hp | intros v Hv; apply from_log_more, Hp, Hv]).
  destruct pl as [line|]; [|exact Hp].
  assert (Hline : In line fd).
  { eapply Permutation_in; [exact Hperm|].
    apply in_or_app. right. apply in_or_app. right. left. reflexivity. }
  pose proof (OneShotExtras.for_each_state_preserves_in
                (fun p => forall v, reported p v -> from_log fd v)
                (handle_url url_write_fails cf) (line_urls line)
                (fun u a Hu =>
                   handle_url_reported cf fd u a
                     (ex_intro _ line (conj Hline Hu)))
                ps Hp) as Hscan.
  unfold scan_line.
  destruct (for_each (handle_url url_write_fails cf) (line_urls line) ps);
    exact Hscan.
Qed.

(** X16. Under every schedule of the threads, a session reports no URL
    of its own making: whatever is in the dedup set, was notified to the
    listener, has a line in the URL file or was given to the download
    is a URL that the matcher finds in one of the lines read from the
    process. *)
Theorem reported_urls_come_from_log (cf : @config L) (l0 : L)
    (sched : list event) (u : str) :
  let c := run url_write_fails sched (init cf l0) in
  reported (parser c) u -> from_log (fed c) u.
Proof.
  cbv zeta. revert u. induction sched as [|e sched IH] using rev_ind.
  - intros u [H|[H|[H|H]]]; simpl in H; try contradiction. set_solver.
  - rewrite SessionFacts.run_app. simpl.
    apply step_reported; [|exact IH].
    apply (SessionFacts.run_conserves_lines url_write_fails sched cf l0).
Qed.

End Threads.

Lemma reported_urls_come_from_log_witness :
  let c := run (fun _ => false)
             [Feed payload_line; ParserGet; ParserScan; Stop]
             (init logging_config []) in
  reported (parser c) (lit "https://example.com/ota/payload.bin") /\
  from_log (fed c) (lit "https://example.com/ota/payload.bin").
Proof.
  cbv zeta.
  assert (H : reported
                (parser (run (fun _ => false)
                           [Feed payload_line; ParserGet; ParserScan; Stop]
                           (init logging_config [])))
                (lit "https://example.com/ota/payload.bin")).
  { right. left. vm_compute. left. reflexivity. }
  split; [exact H|].
  apply (reported_urls_come_from_log (fun _ => false) logging_config []
           [Feed payload_line; ParserGet; ParserScan; Stop] _ H).
Defined.

End ProvenanceFacts.
